(** * house-finder: the scan of scan.js, embedded and verified

    scan.js opens three real-estate sites in one headless browser page
    (DuProprio, Centris, Sutton), walks the paginated result lists, builds
    one record per listing, keeps the records whose id is not in
    listings.json yet, and, when there is at least one, notifies and rewrites
    listings.json.

    The embedding follows the script function by function.  JavaScript
    objects used as dictionaries are finite maps from strings ([gmap]);
    the DOM is seen through snapshots that hold, for every selector the
    script evaluates, what the selector yields; globals and the outside
    world (console, disk, mail, process exit) are fields of an explicit
    state that every function threads. *)

From Stdlib Require Import ZArith Ascii String List.
From stdpp Require Import gmap strings list fin_maps pretty.
From Equations Require Import Equations.

Open Scope string_scope.
Open Scope Z_scope.

(** ** JavaScript strings

    A string is held as the bytes of its UTF-8 encoding.  The characters
    that the patterns and the separators of the script are made of are
    ASCII, one byte each, and such a byte occurs nowhere inside the encoding
    of another character: a search by bytes finds what the script's search
    by characters finds.  White space is not ASCII only, and is matched by
    whole characters. *)

Module JsString.

Definition is_digit (c : ascii) : bool :=
  (48 <=? nat_of_ascii c)%nat && (nat_of_ascii c <=? 57)%nat.

Definition utf8_1 (a : ascii) : string := String a EmptyString.
Definition utf8_2 (a b : ascii) : string := String a (String b EmptyString).
Definition utf8_3 (a b c : ascii) : string :=
  String a (String b (String c EmptyString)).

(** The white space of JavaScript, [WhiteSpace] and [LineTerminator]: what
    [trim] removes and what [parseInt] skips.  U+0009 to U+000D, U+0020,
    U+00A0, U+1680, U+2000 to U+200A, U+2028, U+2029, U+202F, U+205F, U+3000
    and U+FEFF, each as its bytes. *)
Definition white_space : list string :=
  [ utf8_1 "009"; utf8_1 "010"; utf8_1 "011"; utf8_1 "012"; utf8_1 "013";
    utf8_1 "032";
    utf8_2 "194" "160";
    utf8_3 "225" "154" "128";
    utf8_3 "226" "128" "128"; utf8_3 "226" "128" "129"; utf8_3 "226" "128" "130";
    utf8_3 "226" "128" "131"; utf8_3 "226" "128" "132"; utf8_3 "226" "128" "133";
    utf8_3 "226" "128" "134"; utf8_3 "226" "128" "135"; utf8_3 "226" "128" "136";
    utf8_3 "226" "128" "137"; utf8_3 "226" "128" "138";
    utf8_3 "226" "128" "168"; utf8_3 "226" "128" "169"; utf8_3 "226" "128" "175";
    utf8_3 "226" "129" "159";
    utf8_3 "227" "128" "128";
    utf8_3 "239" "187" "191" ].

(** [s.replace(/[^0-9]/g, '')] *)
Fixpoint digits_only (s : string) : string :=
  match s with
  | EmptyString => EmptyString
  | String c s' =>
      if is_digit c then String c (digits_only s') else digits_only s'
  end.

(** [strip_prefix p s] is what follows [p] in [s] when [s] starts with [p]. *)
Fixpoint strip_prefix (p s : string) : option string :=
  match p, s with
  | EmptyString, _ => Some s
  | String a p', String b s' =>
      if Ascii.eqb a b then strip_prefix p' s' else None
  | String _ _, EmptyString => None
  end.

Fixpoint drop_while (f : ascii -> bool) (s : string) : string :=
  match s with
  | EmptyString => EmptyString
  | String c s' => if f c then drop_while f s' else s
  end.

Fixpoint rev_onto (s acc : string) : string :=
  match s with
  | EmptyString => acc
  | String c s' => rev_onto s' (String c acc)
  end.

Definition rev (s : string) : string := rev_onto s EmptyString.

(** What follows the member of [ws] that [s] starts with, if it starts with
    one. *)
Fixpoint after_any (ws : list string) (s : string) : option string :=
  match ws with
  | [] => None
  | w :: ws' =>
      match strip_prefix w s with
      | Some rest => Some rest
      | None => after_any ws' s
      end
  end.

(** [s] without the members of [ws] it starts with, [n] of them at most. *)
Fixpoint drop_leading (ws : list string) (n : nat) (s : string) : string :=
  match n with
  | O => s
  | S n' =>
      match after_any ws s with
      | Some rest => drop_leading ws n' rest
      | None => s
      end
  end.

(** [s.trimStart()]: a string holds no more characters than bytes. *)
Definition trimStart (s : string) : string :=
  drop_leading white_space (String.length s) s.

(** [s.trimEnd()], read from the last byte backwards. *)
Definition trimEnd (s : string) : string :=
  rev (drop_leading (List.map rev white_space) (String.length s) (rev s)).

(** [s.trim()] *)
Definition trim (s : string) : string := trimEnd (trimStart s).

(** [s.split(sep)] for a one-character separator. *)
Fixpoint split (sep : ascii) (s : string) : list string :=
  match s with
  | EmptyString => [EmptyString]
  | String c s' =>
      if Ascii.eqb c sep then EmptyString :: split sep s'
      else match split sep s' with
           | h :: t => String c h :: t
           | [] => [String c EmptyString]
           end
  end.

(** [s.split(sep)[0]] for a separator of any length: the text before the
    first occurrence of [sep], all of [s] when there is none. *)
Fixpoint split_head (sep s : string) : string :=
  match strip_prefix sep s with
  | Some _ => EmptyString
  | None =>
      match s with
      | EmptyString => EmptyString
      | String c s' => String c (split_head sep s')
      end
  end.

(** [/listing-[0-9]+/.test(s)]: the pattern is not anchored, so it looks
    for the text [listing-] followed by a digit anywhere in [s]. *)
Fixpoint test_listing (s : string) : bool :=
  match strip_prefix "listing-" s with
  | Some (String c _) =>
      is_digit c
      || match s with String _ s' => test_listing s' | EmptyString => false end
  | _ => match s with String _ s' => test_listing s' | EmptyString => false end
  end.

(** String conversion of a value that may be [null] (in a concatenation,
    or as the argument of [test] and [parseInt]). *)
Definition of_nullable (o : option string) : string :=
  match o with Some s => s | None => "null" end.

(** The same for a value that may be [undefined]. *)
Definition of_optional (o : option string) : string :=
  match o with Some s => s | None => "undefined" end.

(** One or more digits at the head of [s], and what follows them. *)
Definition digits1 (s : string) : option string :=
  match s with
  | String c s' => if is_digit c then Some (drop_while is_digit s') else None
  | EmptyString => None
  end.

(** What follows a match of [/&w=\d+&h=\d+&/] at the head of [s]. *)
Definition match_size_at (s : string) : option string :=
  match strip_prefix "&w=" s with
  | None => None
  | Some s1 =>
      match digits1 s1 with
      | None => None
      | Some s2 =>
          match strip_prefix "&h=" s2 with
          | None => None
          | Some s3 =>
              match digits1 s3 with
              | None => None
              | Some s4 => strip_prefix "&" s4
              end
          end
      end
  end.

(** [s.replace(/&w=\d+&h=\d+&/, r)]: the leftmost match is replaced. *)
Fixpoint replace_size (r s : string) : string :=
  match match_size_at s with
  | Some rest => r +:+ rest
  | None =>
      match s with
      | EmptyString => EmptyString
      | String c s' => String c (replace_size r s')
      end
  end.

(** [s.padStart(2, '0')] *)
Definition padStart2 (s : string) : string :=
  match s with
  | EmptyString => "00"
  | String c EmptyString => String "0" s
  | _ => s
  end.

End JsString.

(** ** Numbers: the values of a [price] property

    [parseInt] yields [NaN] or an integer; the integer is kept exact (the
    rounding of integers above 2^53 to doubles is not modelled).  [Null] is
    the [null] that stands where a [NaN] was once the record that held it
    has left the page (see [by_value]). *)

Inductive number : Type :=
| NaN
| Num (z : Z)
| Null.

#[global] Instance number_eq_dec : EqDecision number.
Proof. solve_decision. Defined.

Module JsNumber.
Import JsString.

Definition digit_value (radix : Z) (c : ascii) : option Z :=
  let n := Z.of_nat (nat_of_ascii c) in
  let v :=
    if (48 <=? n) && (n <=? 57) then Some (n - 48)
    else if (97 <=? n) && (n <=? 122) then Some (n - 87)
    else if (65 <=? n) && (n <=? 90) then Some (n - 55)
    else None in
  match v with
  | Some d => if d <? radix then Some d else None
  | None => None
  end.

(** The value of the longest prefix of [s] made of digits of [radix],
    [acc] being the value read so far ([None]: no digit yet). *)
Fixpoint read_digits (radix : Z) (s : string) (acc : option Z) : option Z :=
  match s with
  | EmptyString => acc
  | String c s' =>
      match digit_value radix c with
      | Some d =>
          read_digits radix s'
            (Some (match acc with Some a => a * radix + d | None => d end))
      | None => acc
      end
  end.

(** [parseInt(s)] with no radix argument: leading white space, a sign,
    [0x] or [0X] for base 16, then as many digits as there are. *)
Definition parseInt (s : string) : number :=
  let s := trimStart s in
  let '(sign, s) :=
    match s with
    | String "-" s' => (-1, s')
    | String "+" s' => (1, s')
    | _ => (1, s)
    end in
  let '(radix, s) :=
    match s with
    | String "0" (String "x" s') => (16, s')
    | String "0" (String "X" s') => (16, s')
    | _ => (10, s)
    end in
  match read_digits radix s None with
  | Some v => Num (sign * v)
  | None => NaN
  end.

(** [a < b] and [a > b]: false as soon as one side is [NaN]; [null]
    compares as 0. *)
Definition lt (a : number) (b : Z) : bool :=
  match a with Num x => x <? b | NaN => false | Null => 0 <? b end.
Definition gt (a : number) (b : Z) : bool :=
  match a with Num x => b <? x | NaN => false | Null => b <? 0 end.

(** A number that leaves the page inside the value [page.evaluate] returns:
    the value is serialised there and rebuilt on the other side, and [NaN],
    which the serialisation cannot hold, arrives as [null]. *)
Definition by_value (n : number) : number :=
  match n with
  | NaN => Null
  | _ => n
  end.

End JsNumber.

(** ** Listings and the objects that hold them *)

(** The record every scan builds (scan.js 97-107, 166-176, 246-256).
    [price] is what [parseInt] returned as long as the record is in the
    page, and [null] instead of [NaN] afterwards; [city], [address],
    [description] and [imageUrl] may be [null]. *)
Record Listing : Type := mkListing {
  id : string;
  price : number;
  city : option string;
  address : option string;
  description : option string;
  imageUrl : option string;
  url : string;
  dateScanned : string;
  source : string
}.

#[global] Instance Listing_eq_dec : EqDecision Listing.
Proof. solve_decision. Defined.

(** A record that [page.evaluate] returns, alone or in a dictionary, as it
    arrives: it crosses by value.  Its strings and its [null]s arrive as
    they are; its number does as [JsNumber.by_value] tells. *)
Definition by_value (l : Listing) : Listing :=
  {| id := id l; price := JsNumber.by_value (price l); city := city l;
     address := address l; description := description l;
     imageUrl := imageUrl l; url := url l; dateScanned := dateScanned l;
     source := source l |}.

(** A JavaScript object used as a dictionary of listings: its own
    properties.  The keys the script uses never look like array indices, and
    no result below depends on the order of enumeration. *)
Abbreviation obj := (gmap string Listing).

(** The properties every plain object inherits from [Object.prototype]:
    [o[k]] is defined for them whatever [o] holds. *)
Definition object_prototype : list string :=
  [ "constructor"; "__defineGetter__"; "__defineSetter__"; "hasOwnProperty";
    "__lookupGetter__"; "__lookupSetter__"; "isPrototypeOf";
    "propertyIsEnumerable"; "toString"; "valueOf"; "__proto__";
    "toLocaleString" ].

(** [typeof o[k] != 'undefined'] *)
Definition is_defined (o : obj) (k : string) : bool :=
  bool_decide (is_Some (o !! k)) || bool_decide (k ∈ object_prototype).

(** [Object.assign(target, src)]: every property of [src] is written on
    [target], so [src] wins where both have the key. *)
Definition Object_assign (target src : obj) : obj := src ∪ target.

(** [Object.values(o)] *)
Definition Object_values (o : obj) : list Listing := (map_to_list o).*2.

(** [Object.keys(o).length] *)
Definition Object_keys_length (o : obj) : nat := size o.

(** ** Exceptions, globals and the outside world *)

Record exn : Type := mkExn { message : string; stack : string }.

(** Reading a property of [null]. *)
Definition TypeError_null : exn :=
  {| message := "Cannot read properties of null";
     stack := "TypeError: Cannot read properties of null" |}.

(** A navigation that did not settle within its 60000 ms, or a page script
    that never returned. *)
Definition TimeoutError : exn :=
  {| message := "Navigation timeout of 60000 ms exceeded";
     stack := "TimeoutError: Navigation timeout of 60000 ms exceeded" |}.

(** A line of standard output: the text of a [console.log], or the object
    that [endWithError] and [endWithSuccess] print with [JSON.stringify]
    ([j_status] is absent from the success object). *)
Inductive output : Type :=
| Text (s : string)
| Json (j_success : bool) (j_message : string) (j_status : option string).

(** The script's global variables (scan.js 12-16) and what it does to the
    world around it. *)
Record St : Type := mkSt {
  savedListings : obj;          (* let savedListings = require('./listings.json') *)
  verboseMode : bool;           (* -v *)
  extraVerboseMode : bool;      (* -vv *)
  status : string;              (* let status *)
  console : list output;        (* console.log, oldest first *)
  loaded : nat;                 (* documents the page has displayed *)
  mails : list obj;             (* arguments of the calls of sendEmailNotification *)
  written : list obj;           (* contents written to listings.json *)
  browser_closed : bool;        (* browser.close() *)
  exitCode : option Z;          (* process.exitCode *)
  exited : option Z;            (* process.exit(code) *)
  orphaned : nat                (* pending promises that nothing awaits *)
}.

Definition initial (saved : obj) (v vv : bool) : St :=
  {| savedListings := saved; verboseMode := v; extraVerboseMode := vv;
     status := "Just started"; console := []; loaded := 0; mails := [];
     written := []; browser_closed := false; exitCode := None; exited := None;
     orphaned := 0 |}.

(** The code the process ends with: the argument of [process.exit] when it
    was called; otherwise 1 when a promise was left pending with nothing
    awaiting it, because its rejection, which comes when its time limit
    passes or when the browser closes, is unhandled, and Node ends a
    process on an unhandled rejection with code 1; otherwise
    [process.exitCode], 0 when it was never set. *)
Definition exit_code (st : St) : Z :=
  match exited st with
  | Some c => c
  | None => if (0 <? orphaned st)%nat then 1 else default 0 (exitCode st)
  end.

(** ** Computations: state, exceptions, local frames

    A computation on a state [S] ends with a value or with an exception;
    the state it leaves is kept in both cases, which is what makes a
    [catch] see the assignments made before the [throw]. *)

Definition Js (S A : Type) : Type := S -> (exn + A) * S.

#[global] Instance Js_ret {S} : MRet (Js S) := λ A a s, (inr a, s).

#[global] Instance Js_bind {S} : MBind (Js S) := λ A B f m s,
  match m s with
  | (inr a, s') => f a s'
  | (inl e, s') => (inl e, s')
  end.

Definition throw {S A} (e : exn) : Js S A := λ s, (inl e, s).

(** A value computed in the page, or the exception it raised there. *)
Definition settle {S A} (r : exn + A) : Js S A := λ s, (r, s).

(** [try { m } catch (e) { h e }] *)
Definition try_catch {S A} (m : Js S A) (h : exn -> Js S A) : Js S A := λ s,
  match m s with
  | (inl e, s') => h e s'
  | r => r
  end.

(** [for (const x of l) { body x }]; [continue] is the body returning. *)
Fixpoint for_of {S A} (l : list A) (body : A -> Js S unit) : Js S unit :=
  match l with
  | [] => mret tt
  | x :: l' => body x ;; for_of l' body
  end.

(** A function body runs on the globals and its own local variables [L]. *)
Definition glob {L A} (m : Js St A) : Js (St * L) A := λ s,
  let '(r, st') := m s.1 in (r, (st', s.2)).

Definition get_local {L} : Js (St * L) L := λ s, (inr s.2, s).

Definition set_local {L} (f : L -> L) : Js (St * L) unit := λ s,
  (inr tt, (s.1, f s.2)).

(** Calling a function: a fresh frame, dropped when the call ends. *)
Definition call {L A} (locals : L) (m : Js (St * L) A) : Js St A := λ st,
  let '(r, s') := m (st, locals) in (r, s'.1).

Definition modify (f : St -> St) : Js St unit := λ st, (inr tt, f st).

Definition set_status (s : string) : Js St unit :=
  modify (λ st,
    {| savedListings := savedListings st; verboseMode := verboseMode st;
       extraVerboseMode := extraVerboseMode st; status := s;
       console := console st; loaded := loaded st; mails := mails st;
       written := written st; browser_closed := browser_closed st;
       exitCode := exitCode st; exited := exited st;
       orphaned := orphaned st |}).

Definition console_log (o : output) : Js St unit :=
  modify (λ st,
    {| savedListings := savedListings st; verboseMode := verboseMode st;
       extraVerboseMode := extraVerboseMode st; status := status st;
       console := console st ++ [o]; loaded := loaded st; mails := mails st;
       written := written st; browser_closed := browser_closed st;
       exitCode := exitCode st; exited := exited st;
       orphaned := orphaned st |}).

(** The page displays one more document (a [goto] or a navigation that
    settled, a click in the page followed by its delay). *)
Definition display : Js St unit :=
  modify (λ st,
    {| savedListings := savedListings st; verboseMode := verboseMode st;
       extraVerboseMode := extraVerboseMode st; status := status st;
       console := console st; loaded := S (loaded st); mails := mails st;
       written := written st; browser_closed := browser_closed st;
       exitCode := exitCode st; exited := exited st;
       orphaned := orphaned st |}).

(** [savedListings[k] = v] *)
Definition save_listing (k : string) (v : Listing) : Js St unit :=
  modify (λ st,
    {| savedListings := <[k := v]> (savedListings st);
       verboseMode := verboseMode st;
       extraVerboseMode := extraVerboseMode st; status := status st;
       console := console st; loaded := loaded st; mails := mails st;
       written := written st; browser_closed := browser_closed st;
       exitCode := exitCode st; exited := exited st;
       orphaned := orphaned st |}).

(** [browser.close()] *)
Definition browser_close : Js St unit :=
  modify (λ st,
    {| savedListings := savedListings st; verboseMode := verboseMode st;
       extraVerboseMode := extraVerboseMode st; status := status st;
       console := console st; loaded := loaded st; mails := mails st;
       written := written st; browser_closed := true;
       exitCode := exitCode st; exited := exited st;
       orphaned := orphaned st |}).

(** [page.waitForNavigation(...)] called and its promise left to itself:
    nothing awaits it and nothing will handle its rejection. *)
Definition waitForNavigation_orphaned : Js St unit :=
  modify (λ st,
    {| savedListings := savedListings st; verboseMode := verboseMode st;
       extraVerboseMode := extraVerboseMode st; status := status st;
       console := console st; loaded := loaded st; mails := mails st;
       written := written st; browser_closed := browser_closed st;
       exitCode := exitCode st; exited := exited st;
       orphaned := S (orphaned st) |}).

(** [process.exitCode = c] *)
Definition set_exitCode (c : Z) : Js St unit :=
  modify (λ st,
    {| savedListings := savedListings st; verboseMode := verboseMode st;
       extraVerboseMode := extraVerboseMode st; status := status st;
       console := console st; loaded := loaded st; mails := mails st;
       written := written st; browser_closed := browser_closed st;
       exitCode := Some c; exited := exited st;
       orphaned := orphaned st |}).

(** [process.exit(c)] *)
Definition process_exit (c : Z) : Js St unit :=
  modify (λ st,
    {| savedListings := savedListings st; verboseMode := verboseMode st;
       extraVerboseMode := extraVerboseMode st; status := status st;
       console := console st; loaded := loaded st; mails := mails st;
       written := written st; browser_closed := browser_closed st;
       exitCode := exitCode st; exited := Some c;
       orphaned := orphaned st |}).

(** ** The helpers of scan.js *)

(** scan.js 335-345 *)
Definition verbose (message : string) (extra : bool) : Js St unit := λ st,
  if extra && negb (extraVerboseMode st) then (inr tt, st)
  else if verboseMode st || extraVerboseMode st
       then console_log (Text message) st
       else (inr tt, st).

(** What [formatDate] reads of a [Date]: [getFullYear()], [getMonth()]
    (January is 0) and [getDate()]. *)
Record Date : Type := mkDate { getFullYear : nat; getMonth : nat; getDate : nat }.

(** scan.js 328-333, on the date [new Date()] gave. *)
Definition formatDate (date : Date) : string :=
  pretty (getFullYear date) +:+ "-"
  +:+ JsString.padStart2 (pretty (getMonth date + 1)%nat) +:+ "-"
  +:+ JsString.padStart2 (pretty (getDate date)).

(** scan.js 274-309: the body is commented out, the call does nothing but
    happen. *)
Definition sendEmailNotification (newListings : obj) : Js St unit :=
  modify (λ st,
    {| savedListings := savedListings st; verboseMode := verboseMode st;
       extraVerboseMode := extraVerboseMode st; status := status st;
       console := console st; loaded := loaded st;
       mails := mails st ++ [newListings];
       written := written st; browser_closed := browser_closed st;
       exitCode := exitCode st; exited := exited st;
       orphaned := orphaned st |}).

(** scan.js 51-53: [fs.writeFile] of [JSON.stringify(savedListings)] on
    listings.json; the promise resolves whatever the outcome. *)
Definition write_listings : Js St unit :=
  modify (λ st,
    {| savedListings := savedListings st; verboseMode := verboseMode st;
       extraVerboseMode := extraVerboseMode st; status := status st;
       console := console st; loaded := loaded st; mails := mails st;
       written := written st ++ [savedListings st];
       browser_closed := browser_closed st;
       exitCode := exitCode st; exited := exited st;
       orphaned := orphaned st |}).

(** scan.js 353-357 *)
Definition endWithError (message : string) : Js St unit :=
  st ← (λ st, (inr st, st));
  console_log (Json false message (Some (status st)));;
  browser_close;;
  process_exit 1.

(** scan.js 359-363 *)
Definition endWithSuccess (message : option string) : Js St unit :=
  console_log (Json true (default "" message) None);;
  browser_close;;
  set_exitCode 0.

(** ** What the script is given: configuration, clock and the three sites *)

(** config.json, which is not part of the sources: the fields scan.js reads. *)
Record Config : Type := mkConfig {
  duproprio_url : string;
  centris_url : string;
  centris_minPrice : Z;
  centris_maxPrice : Z;
  sutton_url : string
}.

(** An item of DuProprio's result list
    ([.search-results-listings-list__item]), through the selectors of
    scan.js 80-104.  [None] is [null]: no such attribute, no such element. *)
Record DupItem : Type := mkDupItem {
  dup_is_sold : bool;                (* the item has class is-sold *)
  dup_attr_id : option string;       (* getAttribute('id') *)
  dup_price : option string;         (* textContent of ...__price *)
  dup_city : option string;          (* textContent of ...__city-wrap *)
  dup_address : option string;       (* textContent of ...__address *)
  dup_intro : option string;         (* textContent of ...__type-and-intro *)
  dup_img : option (option string);  (* img[ref=id], then its attribute src *)
  dup_link : option string           (* href of a[property="significantLink"] *)
}.

(** A page of DuProprio's results. *)
Record DupDoc : Type := mkDupDoc {
  dup_items : list DupItem;
  dup_active_is_last : bool;  (* .pagination__item--active:last-child exists *)
  dup_has_next : bool         (* .pagination__item--active + .pagination__item exists *)
}.

(** An item of Sutton's list ([li[data-inscription-id]]), scan.js 154-164. *)
Record SutItem : Type := mkSutItem {
  sut_vendu : bool;                       (* a descendant has class vendu *)
  sut_details : option (string * string); (* .divInscriptionInfo h2 a: textContent, href *)
  sut_inscription_id : string;            (* data-inscription-id *)
  sut_address : option string;            (* textContent of .divInfoCompact address *)
  sut_city : option string;               (* textContent of the city span *)
  sut_img : option string;                (* src of .divInscriptionPhoto.compact img *)
  sut_prix : option string                (* data-prix *)
}.

Record SutDoc : Type := mkSutDoc {
  sut_items : list SutItem;
  sut_next_hidden : bool;  (* .divControleListe .pagesuivante.hidden exists *)
  sut_has_next : bool      (* .divControleListe .pagesuivante exists *)
}.

(** An item of Centris's list, scan.js 234-240.  [cen_marked_sold] tells
    whether the page marks the item as sold or unavailable in any way: no
    selector of scan.js looks at it. *)
Record CenItem : Type := mkCenItem {
  cen_marked_sold : bool;
  cen_details : option (option string * string); (* a.a-more-detail: data-mlsnumber, href *)
  cen_address : option string;            (* textContent of .address > div:nth-child(1) *)
  cen_city : option string;               (* textContent of .address > div:nth-child(2) *)
  cen_img : option string;                (* src of img[itemprop="image"] *)
  cen_price : option (option string)      (* [itemprop="price"], then its attribute content *)
}.

Record CenDoc : Type := mkCenDoc {
  cen_items : list CenItem;
  cen_has_next : bool   (* .pager-bottom .pager .next:not(.inactive) a exists *)
}.

(** A site, as one scan sees it: the documents the page displays one after
    the other, first the one [goto] loads, then one for each move to the next
    page.  When the list is over, the next load does not settle within its
    timeout ([goto] on [[]] is a site that does not answer). *)
Record Web : Type := mkWeb {
  web_duproprio : string -> list DupDoc;
  web_centris : string -> list CenDoc;
  web_sutton : string -> list SutDoc
}.

Record Env : Type := mkEnv {
  config : Config;
  web : Web;
  now : Date      (* new Date() *)
}.

(** ** DuProprio (scan.js 63-132) *)

(** The function evaluated in the page for one item (scan.js 92-108). *)
Definition dup_evaluate (node : DupItem) (todaysDate : string) : exn + Listing :=
  let node_id := default "" (dup_attr_id node) in
  let cityNode := dup_city node in
  let addressNode := dup_address node in
  let descriptionNode := dup_intro node in
  match dup_price node with
  | None => inl TypeError_null
  | Some priceText =>
      match dup_img node with
      | None => inl TypeError_null
      | Some src =>
          match dup_link node with
          | None => inl TypeError_null
          | Some href =>
              inr {| id := "duproprio-"
                           +:+ JsString.of_optional (JsString.split "-" node_id !! 1%nat);
                     price := JsNumber.parseInt (JsString.digits_only priceText);
                     city := JsString.trim <$> cityNode;
                     address := JsString.trim <$> addressNode;
                     description := JsString.trim <$> descriptionNode;
                     imageUrl := src;
                     url := href;
                     dateScanned := todaysDate;
                     source := "DuProprio" |}
          end
      end
  end.

(** The body of the loop over the items (scan.js 83-108): the record that
    [page.evaluate] returns is stored as it arrives. *)
Definition dup_item (todaysDate : string) (listingNode : DupItem) : Js (St * obj) unit :=
  let listingId := dup_attr_id listingNode in
  if negb (JsString.test_listing (JsString.of_nullable listingId)) then mret tt
  else
    match listingId with
    | None => throw TypeError_null
    | Some s =>
        let listingId := JsString.of_optional (JsString.split "-" s !! 1%nat) in
        glob (set_status ("Processing DuProprio listing item " +:+ listingId));;
        l ← settle (dup_evaluate listingNode todaysDate);
        set_local (insert ("duproprio-" +:+ listingId) (by_value l))
    end.

(** The [do ... while (!isOnLastPage)] of scan.js 76-123, on the document
    displayed and those still to come.  The array of lines 117-120 is built
    from left to right: [page.waitForNavigation] has been called when
    [nextPageLink.click()] throws on a [nextPageLink] that is [null], and
    [Promise.all] is not reached. *)
Fixpoint dup_do_while (todaysDate : string) (pageNumber : nat)
    (document : DupDoc) (upcoming : list DupDoc) : Js (St * obj) unit :=
  glob (verbose ("Scanning page " +:+ pretty pageNumber +:+ "...") false);;
  glob (set_status "Looking for DuProprio listing items");;
  let listingNodes := List.filter (λ n, negb (dup_is_sold n)) (dup_items document) in
  for_of listingNodes (dup_item todaysDate);;
  let isOnLastPage := dup_active_is_last document in
  if negb isOnLastPage then
    glob (set_status "Going to next page on DuPropio");;
    if dup_has_next document then
      match upcoming with
      | [] => throw TimeoutError
      | next :: later =>
          glob display;;
          dup_do_while todaysDate (S pageNumber) next later
      end
    else glob waitForNavigation_orphaned;; throw TypeError_null
  else mret tt.

Definition scanDuproprioListings (env : Env) : Js St obj :=
  call (∅ : obj)
    (let todaysDate := formatDate (now env) in
     glob (set_status "Opening DuProprio's website");;
     glob (verbose "Opening DuProprio's website..." false);;
     try_catch
       (match web_duproprio (web env) (duproprio_url (config env)) with
        | [] => throw TimeoutError
        | document :: upcoming =>
            glob display;;
            glob (verbose "Starting to scan for listings..." false);;
            dup_do_while todaysDate 1 document upcoming;;
            glob (set_status "Finished scanning DuProprio");;
            listings ← get_local;
            glob (verbose ("Finished scanning DuProprio: total of "
                           +:+ pretty (Object_keys_length listings)
                           +:+ " listings found.") false)
        end)
       (λ e, glob (verbose ("An error occured while scanning DuProprio: "
                            +:+ message e) false));;
     get_local).

(** ** Sutton (scan.js 134-206) *)

(** The body of the loop run in the page (scan.js 155-176); its [listings]
    is the page function's own. *)
Definition sut_item (todaysDate : string) (listingNode : SutItem) : Js (St * obj) unit :=
  if sut_vendu listingNode then mret tt
  else
    let detailsLinkNode := sut_details listingNode in
    let listingId := sut_inscription_id listingNode in
    let addressNode := sut_address listingNode in
    let cityNode := sut_city listingNode in
    match sut_img listingNode with
    | None => throw TypeError_null
    | Some imageUrl =>
        let price := JsNumber.parseInt (JsString.of_nullable (sut_prix listingNode)) in
        match detailsLinkNode with
        | None => throw TypeError_null
        | Some (text, href) =>
            set_local (insert ("sutton-" +:+ listingId)
              {| id := "sutton-" +:+ listingId;
                 price := price;
                 city := JsString.trim <$> cityNode;
                 address := JsString.trim <$> addressNode;
                 description := Some (JsString.trim (JsString.split_head " - " text));
                 imageUrl := Some imageUrl;
                 url := href;
                 dateScanned := todaysDate;
                 source := "Sutton" |})
        end
    end.

(** The function evaluated in the page for one document (scan.js 151-180). *)
Definition sut_evaluate (document : SutDoc) (todaysDate : string) : Js St obj :=
  call (∅ : obj) (for_of (sut_items document) (sut_item todaysDate);; get_local).

(** The [do ... while (!isOnLastPage)] of scan.js 147-197: the dictionary
    of a page arrives by value, and lines 190-193 are as lines 117-120. *)
Fixpoint sut_do_while (todaysDate : string) (pageNumber : nat)
    (document : SutDoc) (upcoming : list SutDoc) : Js (St * obj) unit :=
  glob (verbose ("Scanning page " +:+ pretty pageNumber +:+ "...") false);;
  glob (set_status "Looking for Sutton listing items");;
  pageListings ← glob (sut_evaluate document todaysDate);
  set_local (λ listings, Object_assign listings (by_value <$> pageListings));;
  let isOnLastPage := sut_next_hidden document in
  if negb isOnLastPage then
    glob (set_status "Going to next page on Sutton");;
    if sut_has_next document then
      match upcoming with
      | [] => throw TimeoutError
      | next :: later =>
          glob display;;
          sut_do_while todaysDate (S pageNumber) next later
      end
    else glob waitForNavigation_orphaned;; throw TypeError_null
  else mret tt.

Definition scanSuttonListings (env : Env) : Js St obj :=
  call (∅ : obj)
    (let todaysDate := formatDate (now env) in
     glob (set_status "Opening Sutton's website");;
     glob (verbose "Opening Sutton's website..." false);;
     try_catch
       (match web_sutton (web env) (sutton_url (config env)) with
        | [] => throw TimeoutError
        | document :: upcoming =>
            glob display;;
            glob (verbose "Starting to scan for listings..." false);;
            sut_do_while todaysDate 1 document upcoming;;
            glob (set_status "Finished scanning Sutton");;
            listings ← get_local;
            glob (verbose ("Finished scanning Sutton: total of "
                           +:+ pretty (Object_keys_length listings)
                           +:+ " listings found.") false)
        end)
       (λ e, glob (verbose ("An error occured while scanning Sutton: "
                            +:+ message e) false));;
     get_local).

(** ** Centris (scan.js 208-272) *)

(** The body of the loop over the items (scan.js 235-256). *)
Definition cen_item (minPrice maxPrice : Z) (todaysDate : string)
    (listingNode : CenItem) : Js (St * obj) unit :=
  match cen_details listingNode with
  | None => throw TypeError_null
  | Some (listingId, href) =>
      let addressNode := cen_address listingNode in
      let cityNode := cen_city listingNode in
      match cen_img listingNode with
      | None => throw TypeError_null
      | Some src =>
          let imageUrl := JsString.replace_size "&w=640&h=480&" src in
          match cen_price listingNode with
          | None => throw TypeError_null
          | Some content =>
              let price := JsNumber.parseInt (JsString.of_nullable content) in
              if JsNumber.lt price minPrice || JsNumber.gt price maxPrice then mret tt
              else
                set_local (insert ("centris-" +:+ JsString.of_nullable listingId)
                  {| id := "centris-" +:+ JsString.of_nullable listingId;
                     price := JsNumber.parseInt (JsString.of_nullable content);
                     city := JsString.trim <$> cityNode;
                     address := JsString.trim <$> addressNode;
                     description := Some "";
                     imageUrl := Some imageUrl;
                     url := href;
                     dateScanned := todaysDate;
                     source := "Centris" |})
          end
      end
  end.

Definition inspect {A} (a : A) : {b | a = b} := exist _ a eq_refl.

(** The [while] of scan.js 222-260, run in the page: the condition looks for
    an active "next" control in the document displayed; from the second
    iteration on the control is clicked and the document that follows is the
    one read. *)
Equations? cen_while (minPrice maxPrice : Z) (todaysDate : string)
    (pageNumber : nat) (document : CenDoc) (upcoming : list CenDoc)
    : Js (St * obj) unit
    by wf (List.length upcoming + (2 - pageNumber))%nat lt :=
  cen_while minPrice maxPrice todaysDate pageNumber document upcoming
    with cen_has_next document := {
    | false := mret tt
    | true with inspect (1 <? pageNumber)%nat := {
      | exist _ false _ :=
          for_of (cen_items document) (cen_item minPrice maxPrice todaysDate);;
          cen_while minPrice maxPrice todaysDate (S pageNumber) document upcoming
      | exist _ true _ with upcoming := {
        | [] := throw TimeoutError
        | next :: later :=
            glob display;;
            for_of (cen_items next) (cen_item minPrice maxPrice todaysDate);;
            cen_while minPrice maxPrice todaysDate (S pageNumber) next later } } }.
Proof.
  - simpl. lia.
  - match goal with H : (_ <? _)%nat = false |- _ => apply Nat.ltb_ge in H end. lia.
Qed.

(** The function evaluated in the page (scan.js 218-263). *)
Definition cen_evaluate (minPrice maxPrice : Z) (todaysDate : string)
    (document : CenDoc) (upcoming : list CenDoc) : Js St obj :=
  call (∅ : obj)
    (cen_while minPrice maxPrice todaysDate 1 document upcoming;; get_local).

(** scan.js 208-272: the dictionary that the page function built arrives
    by value. *)
Definition scanCentrisListings (env : Env) : Js St obj :=
  call (∅ : obj)
    (let todaysDate := formatDate (now env) in
     glob (set_status "Opening Centris's website");;
     glob (verbose "Opening Centris's website..." false);;
     try_catch
       (match web_centris (web env) (centris_url (config env)) with
        | [] => throw TimeoutError
        | document :: upcoming =>
            glob display;;
            scannedListings ← glob (cen_evaluate (centris_minPrice (config env))
                                      (centris_maxPrice (config env)) todaysDate
                                      document upcoming);
            let scannedListings : obj := by_value <$> scannedListings in
            set_local (λ _, scannedListings);;
            glob (set_status "Finished scanning Centris");;
            glob (verbose ("Finished scanning Centris: total of "
                           +:+ pretty (Object_keys_length scannedListings)
                           +:+ " listings found.") false)
        end)
       (λ e, glob (verbose ("An error occured while scanning DuProprio: "
                            +:+ message e) false));;
     get_local).

(** ** The run (scan.js 19-61) *)

(** scan.js 27-30: the three scans, one after the other on the same page,
    and their results merged on the first. *)
Definition scanAll (env : Env) : Js St obj :=
  duProprioListings ← scanDuproprioListings env;
  centrisListings ← scanCentrisListings env;
  suttonListings ← scanSuttonListings env;
  mret (Object_assign (Object_assign duProprioListings centrisListings) suttonListings).

(** The body of the loop of scan.js 34-41; the local is [newListings]. *)
Definition keep_if_new (listing : Listing) : Js (St * obj) unit :=
  st ← glob (λ st, (inr st, st));
  if is_defined (savedListings st) (id listing) then mret tt
  else
    set_local (insert (id listing) listing);;
    glob (save_listing (id listing) listing).

(** scan.js 31-41: the records that are new; [savedListings] is updated on
    the way. *)
Definition reconcile (scannedListings : obj) : Js St obj :=
  call (∅ : obj) (for_of (Object_values scannedListings) keep_if_new;; get_local).

(** scan.js 46-54 *)
Definition publish (newListings : obj) : Js St unit :=
  if (Object_keys_length newListings =? 0)%nat then mret tt
  else
    sendEmailNotification newListings;;
    write_listings.

(** The [try] block of scan.js 25-55. *)
Definition main_try (env : Env) : Js St unit :=
  scannedListings ← scanAll env;
  newListings ← reconcile scannedListings;
  verbose ("Finished scanning all websites: "
           +:+ pretty (Object_keys_length scannedListings) +:+ " listings found, "
           +:+ pretty (Object_keys_length newListings) +:+ " are new.") false;;
  publish newListings.

(** scan.js 19-61, once the browser is launched and the page is open:
    [endWithError] ends the process, so the [browser.close()] of line 60 is
    reached only when nothing was caught.  There is no clock here: a promise
    left pending by a scan is taken to last until the browser closes, as it
    does when the rest of the run takes less than its 60 s. *)
Definition main (env : Env) : Js St unit := λ st,
  match main_try env st with
  | (inl e, st') => endWithError (stack e) st'
  | (inr _, st') => browser_close st'
  end.

(** The state the process ends in. *)
Definition run (env : Env) (st : St) : St := (main env st).2.

(** ** The text helpers (scan.js 311-322)

    An element handle is seen through its [textContent]; [None] is the
    [null] that [$] returns when the selector matches nothing. *)

(** scan.js 311-317 *)
Definition getTextContent (element : option string) : string :=
  match element with
  | None => ""
  | Some textContent => JsString.trim textContent
  end.

(** scan.js 319-322: [parentElement] gives, for a selector, the
    [textContent] of the first element under it that matches. *)
Definition getTextContentForSelector (selector : string)
    (parentElement : string -> option string) : string :=
  getTextContent (parentElement selector).

(** * The vocabulary of the properties

    Nothing below is part of the script: these are the predicates its
    properties are stated with, and the inputs they are tried on. *)

(** ** Judgements on computations *)

(** [m] keeps the invariant [I], whether it returns or throws. *)
Definition keeps {S A} (I : S -> Prop) (m : Js S A) : Prop :=
  ∀ s, I s → I (m s).2.

(** [m] never throws. *)
Definition returns {S A} (m : Js S A) : Prop :=
  ∀ s, ∃ a, (m s).1 = inr a.

(** Whatever [m] returns satisfies [Q]. *)
Definition yields {S A} (m : Js S A) (Q : A -> Prop) : Prop :=
  ∀ s a, (m s).1 = inr a → Q a.

(** [m] returns the value its local variable has when it ends. *)
Definition returns_local {L} (m : Js (St * L) L) : Prop :=
  ∀ s a, (m s).1 = inr a → a = (m s).2.2.

(** From a state where [P] holds, [m] returns a value, not an exception,
    and [Q] holds of the value and of the state then. *)
Definition hoare {S A} (P : S -> Prop) (m : Js S A) (Q : A -> S -> Prop) : Prop :=
  ∀ s, P s → ∃ a, (m s).1 = inr a ∧ Q a (m s).2.

(** Invariants that read only the globals, or only the locals, of a frame. *)
Definition on_global {L} (J : St -> Prop) : St * L -> Prop := λ s, J s.1.
Definition on_local {L} (P : L -> Prop) : St * L -> Prop := λ s, P s.2.

(** The page has displayed [n] documents and the local mapping is [acc]. *)
Definition at_page (n : nat) (acc : obj) : St * obj -> Prop :=
  λ s, loaded s.1 = n ∧ s.2 = acc.

(** ** Mappings, sites and pages *)

(** What a scan leaves untouched: it writes [status], prints verbose lines,
    makes the page display documents and may leave a promise pending;
    nothing else. *)
Definition scan_frame (st0 st : St) : Prop :=
  savedListings st = savedListings st0 ∧
  verboseMode st = verboseMode st0 ∧
  extraVerboseMode st = extraVerboseMode st0 ∧
  mails st = mails st0 ∧
  written st = written st0 ∧
  browser_closed st = browser_closed st0 ∧
  exitCode st = exitCode st0 ∧
  exited st = exited st0 ∧
  ∃ lines, console st = (console st0 ++ (Text <$> lines))%list.

(** Every entry of a mapping satisfies [P]. *)
Abbreviation entries P := (on_local (map_Forall (M := obj) P)).

(** [P] as it reads on a record that is still in the page: it will hold
    of the record that arrives. *)
Definition in_page (P : string -> Listing -> Prop) : string -> Listing -> Prop :=
  λ k l, P k (by_value l).

(** An entry of DuProprio's mapping: the record of an item of the site that
    is not sold, carries an id the pattern accepts, and has its price
    element, its image element and its link.  The price is the one that
    arrived: [null] where [parseInt] gave [NaN]. *)
Definition dup_entry (docs : list DupDoc) (k : string) (l : Listing) : Prop :=
  ∃ doc node s priceText src href,
    doc ∈ docs ∧ node ∈ dup_items doc ∧ dup_is_sold node = false ∧
    dup_attr_id node = Some s ∧ JsString.test_listing s = true ∧
    dup_price node = Some priceText ∧ dup_img node = Some src ∧
    dup_link node = Some href ∧
    k = "duproprio-" +:+ JsString.of_optional (JsString.split "-" s !! 1%nat) ∧
    id l = k ∧
    price l = JsNumber.by_value (JsNumber.parseInt (JsString.digits_only priceText)) ∧
    imageUrl l = src ∧
    url l = href.

(** An entry of Sutton's mapping. *)
Definition sut_entry (docs : list SutDoc) (k : string) (l : Listing) : Prop :=
  ∃ doc node text href src,
    doc ∈ docs ∧ node ∈ sut_items doc ∧ sut_vendu node = false ∧
    sut_details node = Some (text, href) ∧ sut_img node = Some src ∧
    k = "sutton-" +:+ sut_inscription_id node ∧
    id l = k ∧
    price l = JsNumber.by_value (JsNumber.parseInt (JsString.of_nullable (sut_prix node))) ∧
    imageUrl l = Some src ∧
    url l = href.

(** An entry of Centris's mapping: the bounds were tested in the page, on
    what [parseInt] gave. *)
Definition cen_entry (docs : list CenDoc) (minPrice maxPrice : Z)
    (k : string) (l : Listing) : Prop :=
  ∃ doc node listingId href src content,
    doc ∈ docs ∧ node ∈ cen_items doc ∧
    cen_details node = Some (listingId, href) ∧ cen_img node = Some src ∧
    cen_price node = Some content ∧
    k = "centris-" +:+ JsString.of_nullable listingId ∧
    id l = k ∧
    JsNumber.lt (JsNumber.parseInt (JsString.of_nullable content)) minPrice = false ∧
    JsNumber.gt (JsNumber.parseInt (JsString.of_nullable content)) maxPrice = false ∧
    price l = JsNumber.by_value (JsNumber.parseInt (JsString.of_nullable content)) ∧
    imageUrl l = Some (JsString.replace_size "&w=640&h=480&" src) ∧
    url l = href.




(** The first listing of [ls] whose id is [k]. *)
Definition find_id (k : string) (ls : list Listing) : option Listing :=
  List.find (λ l, bool_decide (id l = k)) ls.

(** Everything but [savedListings] is as it was. *)
Definition same_but_saved (st st' : St) : Prop :=
  verboseMode st' = verboseMode st ∧
  extraVerboseMode st' = extraVerboseMode st ∧
  status st' = status st ∧
  console st' = console st ∧
  loaded st' = loaded st ∧
  mails st' = mails st ∧
  written st' = written st ∧
  browser_closed st' = browser_closed st ∧
  exitCode st' = exitCode st ∧
  exited st' = exited st ∧
  orphaned st' = orphaned st.

(** A mapping whose every record sits under its own id. *)
Definition keyed_by_id (M : obj) : Prop := map_Forall (λ k l, id l = k) M.

Definition has_prefix (p k : string) : Prop := ∃ native, k = p +:+ native.

(** The ids the three scans build. *)
Definition source_id (k : string) : Prop :=
  has_prefix "duproprio-" k ∨ has_prefix "centris-" k ∨ has_prefix "sutton-" k.

(** What a merged scan mapping is: every record sits under its own id, and
    the id carries the prefix of a source. *)
Definition scan_mapping (M : obj) : Prop :=
  map_Forall (λ k l, id l = k ∧ source_id k) M.

(** The mapping a scan returned. *)
Definition mapping_of (r : (exn + obj) * St) : obj :=
  match r.1 with
  | inr m => m
  | inl _ => ∅
  end.

Definition dup_without_sold (doc : DupDoc) : DupDoc :=
  {| dup_items := List.filter (λ n, negb (dup_is_sold n)) (dup_items doc);
     dup_active_is_last := dup_active_is_last doc;
     dup_has_next := dup_has_next doc |}.

Definition sut_without_sold (doc : SutDoc) : SutDoc :=
  {| sut_items := List.filter (λ n, negb (sut_vendu n)) (sut_items doc);
     sut_next_hidden := sut_next_hidden doc;
     sut_has_next := sut_has_next doc |}.

(** The same sites, the items that DuProprio and Sutton mark as sold taken
    off their pages. *)
Definition without_sold (env : Env) : Env :=
  {| config := config env;
     web := {| web_duproprio := λ u, dup_without_sold <$> web_duproprio (web env) u;
               web_centris := web_centris (web env);
               web_sutton := λ u, sut_without_sold <$> web_sutton (web env) u |};
     now := now env |}.

(** The terminal signal shows on the last document only, and the others
    have a "next" control. *)
Fixpoint dup_paginated (document : DupDoc) (upcoming : list DupDoc) : Prop :=
  match upcoming with
  | [] => dup_active_is_last document = true
  | next :: later =>
      dup_active_is_last document = false ∧ dup_has_next document = true ∧
      dup_paginated next later
  end.

(** The items' loop of DuProprio on one document. *)
Definition dup_items_loop (todaysDate : string) (document : DupDoc) : Js (St * obj) unit :=
  for_of (List.filter (λ n, negb (dup_is_sold n)) (dup_items document))
    (dup_item todaysDate).

(** What the items of one document add to a mapping. *)
Definition dup_page (todaysDate : string) (listings : obj) (document : DupDoc) : obj :=
  (dup_items_loop todaysDate document (initial ∅ false false, listings)).2.2.

Fixpoint sut_paginated (document : SutDoc) (upcoming : list SutDoc) : Prop :=
  match upcoming with
  | [] => sut_next_hidden document = true
  | next :: later =>
      sut_next_hidden document = false ∧ sut_has_next document = true ∧
      sut_paginated next later
  end.

(** What one document of Sutton adds to a mapping. *)
Definition sut_page (todaysDate : string) (listings : obj) (document : SutDoc) : obj :=
  Object_assign listings
    (by_value <$> mapping_of (sut_evaluate document todaysDate (initial ∅ false false))).

Fixpoint cen_paginated (document : CenDoc) (upcoming : list CenDoc) : Prop :=
  match upcoming with
  | [] => cen_has_next document = false
  | next :: later => cen_has_next document = true ∧ cen_paginated next later
  end.

Definition cen_items_loop (minPrice maxPrice : Z) (todaysDate : string)
    (document : CenDoc) : Js (St * obj) unit :=
  for_of (cen_items document) (cen_item minPrice maxPrice todaysDate).

(** What the items of one document add to the mapping of the page
    function, and what they add to a mapping as it arrives from the page. *)
Definition cen_in_page (minPrice maxPrice : Z) (todaysDate : string)
    (listings : obj) (document : CenDoc) : obj :=
  (cen_items_loop minPrice maxPrice todaysDate document
     (initial ∅ false false, listings)).2.2.

Definition cen_page (minPrice maxPrice : Z) (todaysDate : string)
    (listings : obj) (document : CenDoc) : obj :=
  by_value <$> cen_in_page minPrice maxPrice todaysDate listings document.

(** [listings[k] = v] for each [(k, v)] of a list, in its order. *)
Definition assign_all (adds : list (string * Listing)) (listings : obj) : obj :=
  foldl (λ acc kv, <[kv.1 := kv.2]> acc) listings adds.

(** ** Sample inputs *)

Definition sample_config : Config :=
  {| duproprio_url := "https://duproprio.com/fr/rechercher/liste";
     centris_url := "https://www.centris.ca/fr/propriete~a-vendre";
     centris_minPrice := 100000;
     centris_maxPrice := 300000;
     sutton_url := "https://www.suttonquebec.com/fr/recherche" |}.

Definition sample_date : Date := {| getFullYear := 2021; getMonth := 0; getDate := 9 |}.

(** A record as it was saved by an earlier run, and the same listing as a
    later scan finds it, at a lower price. *)
Definition listing_saved : Listing :=
  {| id := "duproprio-812345"; price := Num 215000; city := Some "Magog";
     address := Some "12 rue Principale"; description := Some "Bungalow";
     imageUrl := Some "https://img/812345.jpg"; url := "https://duproprio.com/812345";
     dateScanned := "2021-01-02"; source := "DuProprio" |}.

Definition listing_rescanned : Listing :=
  {| id := "duproprio-812345"; price := Num 200000; city := Some "Magog";
     address := Some "12 rue Principale"; description := Some "Bungalow";
     imageUrl := Some "https://img/812345.jpg"; url := "https://duproprio.com/812345";
     dateScanned := "2021-01-09"; source := "DuProprio" |}.

Definition listing_sutton : Listing :=
  {| id := "sutton-7"; price := Num 180000; city := Some "Orford";
     address := None; description := Some "Maison";
     imageUrl := Some "https://img/7.jpg"; url := "https://sutton/7";
     dateScanned := "2021-01-09"; source := "Sutton" |}.

Definition sample_saved : obj := {[ "duproprio-812345" := listing_saved ]}.

Definition sample_scanned : obj :=
  <["sutton-7" := listing_sutton]> {[ "duproprio-812345" := listing_rescanned ]}.

(** DuProprio: one page, an item whose price reads "Prix sur demande" and
    an item that is sold. *)
Definition dup_on_request : DupItem :=
  {| dup_is_sold := false; dup_attr_id := Some "listing-812345";
     dup_price := Some "Prix sur demande"; dup_city := Some " Magog ";
     dup_address := Some "12 rue Principale"; dup_intro := None;
     dup_img := Some (Some "https://img/812345.jpg");
     dup_link := Some "https://duproprio.com/812345" |}.

Definition dup_sold : DupItem :=
  {| dup_is_sold := true; dup_attr_id := Some "listing-900001";
     dup_price := Some "189 000 $"; dup_city := Some "Magog";
     dup_address := None; dup_intro := None;
     dup_img := Some (Some "https://img/900001.jpg");
     dup_link := Some "https://duproprio.com/900001" |}.

(** Centris: two items within the price bounds, the second one marked as
    sold on the page. *)
Definition cen_house : CenItem :=
  {| cen_marked_sold := false;
     cen_details := Some (Some "11111", "https://www.centris.ca/11111");
     cen_address := Some "4 rue du Lac"; cen_city := Some "Orford";
     cen_img := Some "https://m.centris.ca/p?id=1&w=320&h=240&sm=c";
     cen_price := Some (Some "250000") |}.

Definition cen_sold_condo : CenItem :=
  {| cen_marked_sold := true;
     cen_details := Some (Some "22222", "https://www.centris.ca/22222");
     cen_address := None; cen_city := Some "Magog";
     cen_img := Some "https://m.centris.ca/p?id=2&w=320&h=240&sm=c";
     cen_price := Some (Some "150000") |}.

(** Sutton: one page, one item that is for sale and one that is sold. *)
Definition sut_house : SutItem :=
  {| sut_vendu := false; sut_details := Some ("Maison - Orford", "https://sutton/7");
     sut_inscription_id := "7"; sut_address := None; sut_city := Some "Orford";
     sut_img := Some "https://sutton/7.jpg"; sut_prix := Some "180000" |}.

Definition sut_sold : SutItem :=
  {| sut_vendu := true; sut_details := Some ("Condo - Magog", "https://sutton/8");
     sut_inscription_id := "8"; sut_address := None; sut_city := Some "Magog";
     sut_img := Some "https://sutton/8.jpg"; sut_prix := Some "120000" |}.

Definition sample_web : Web :=
  {| web_duproprio := λ _,
       [ {| dup_items := [dup_on_request; dup_sold];
            dup_active_is_last := true; dup_has_next := false |} ];
     web_centris := λ _,
       [ {| cen_items := [cen_house]; cen_has_next := true |};
         {| cen_items := [cen_sold_condo]; cen_has_next := false |} ];
     web_sutton := λ _,
       [ {| sut_items := [sut_house; sut_sold];
            sut_next_hidden := true; sut_has_next := true |} ] |}.

Definition sample_env : Env :=
  {| config := sample_config; web := sample_web; now := sample_date |}.

(** A Centris search whose results fit on one page: the "next" control is
    inactive on the page [goto] loads. *)
Definition single_page_centris : Env :=
  {| config := sample_config;
     web := {| web_duproprio := web_duproprio sample_web;
               web_centris := λ _, [ {| cen_items := [cen_house]; cen_has_next := false |} ];
               web_sutton := web_sutton sample_web |};
     now := sample_date |}.

(** A DuProprio site whose second page never loads. *)
Definition second_page_times_out : Env :=
  {| config := sample_config;
     web := {| web_duproprio := λ _,
                 [ {| dup_items := [dup_on_request; dup_sold];
                      dup_active_is_last := false; dup_has_next := true |} ];
               web_centris := web_centris sample_web;
               web_sutton := web_sutton sample_web |};
     now := sample_date |}.

(** DuProprio items whose id attribute holds [listing-] and a number, but
    not at its start. *)
Definition dup_featured : DupItem :=
  {| dup_is_sold := false; dup_attr_id := Some "featured-listing-812345";
     dup_price := Some "215 000 $"; dup_city := Some "Magog";
     dup_address := Some "12 rue Principale"; dup_intro := None;
     dup_img := Some (Some "https://img/812345.jpg");
     dup_link := Some "https://duproprio.com/812345" |}.

Definition dup_featured_too : DupItem :=
  {| dup_is_sold := false; dup_attr_id := Some "featured-listing-700002";
     dup_price := Some "225 000 $"; dup_city := Some "Orford";
     dup_address := None; dup_intro := None;
     dup_img := Some (Some "https://img/700002.jpg");
     dup_link := Some "https://duproprio.com/700002" |}.

Definition featured_duproprio : Env :=
  {| config := sample_config;
     web := {| web_duproprio := λ _,
                 [ {| dup_items := [dup_featured; dup_featured_too];
                      dup_active_is_last := true; dup_has_next := false |} ];
               web_centris := web_centris sample_web;
               web_sutton := web_sutton sample_web |};
     now := sample_date |}.

(** ** More vocabulary *)

(** Nothing is to be printed and nothing was. *)
Definition quiet (console0 : list output) (st : St) : Prop :=
  verboseMode st = false ∧ extraVerboseMode st = false ∧ console st = console0.

(** Three sites that do not answer. *)
Definition no_answer : Env :=
  {| config := sample_config;
     web := {| web_duproprio := λ _, []; web_centris := λ _, [];
               web_sutton := λ _, [] |};
     now := sample_date |}.

(** A second DuProprio item, and a site of two pages for each source: the
    terminal signal shows on the second page only. *)
Definition dup_second : DupItem :=
  {| dup_is_sold := false; dup_attr_id := Some "listing-700002";
     dup_price := Some "225 000 $"; dup_city := Some "Orford";
     dup_address := None; dup_intro := Some " Maison a etages ";
     dup_img := Some (Some "https://img/700002.jpg");
     dup_link := Some "https://duproprio.com/700002" |}.

Definition dup_page_one : DupDoc :=
  {| dup_items := [dup_on_request; dup_sold];
     dup_active_is_last := false; dup_has_next := true |}.

Definition dup_page_two : DupDoc :=
  {| dup_items := [dup_second]; dup_active_is_last := true; dup_has_next := false |}.

Definition sut_second : SutItem :=
  {| sut_vendu := false; sut_details := Some ("Chalet - Eastman", "https://sutton/9");
     sut_inscription_id := "9"; sut_address := Some "3 ch. du Lac";
     sut_city := Some "Eastman"; sut_img := Some "https://sutton/9.jpg";
     sut_prix := Some "210000" |}.

Definition sut_page_one : SutDoc :=
  {| sut_items := [sut_house; sut_sold]; sut_next_hidden := false; sut_has_next := true |}.

Definition sut_page_two : SutDoc :=
  {| sut_items := [sut_second]; sut_next_hidden := true; sut_has_next := true |}.

Definition cen_page_one : CenDoc :=
  {| cen_items := [cen_house]; cen_has_next := true |}.

Definition cen_page_two : CenDoc :=
  {| cen_items := [cen_sold_condo]; cen_has_next := false |}.

Definition two_pages_each : Env :=
  {| config := sample_config;
     web := {| web_duproprio := λ _, [dup_page_one; dup_page_two];
               web_centris := λ _, [cen_page_one; cen_page_two];
               web_sutton := λ _, [sut_page_one; sut_page_two] |};
     now := sample_date |}.




(** A Sutton page that shows neither a hidden "next" control nor a "next"
    control at all. *)
Definition sutton_without_next : Env :=
  {| config := sample_config;
     web := {| web_duproprio := web_duproprio sample_web;
               web_centris := web_centris sample_web;
               web_sutton := λ _,
                 [ {| sut_items := [sut_house; sut_sold];
                      sut_next_hidden := false; sut_has_next := false |} ] |};
     now := sample_date |}.

(** Every character of [s] is a decimal digit. *)
Fixpoint all_digits (s : string) : bool :=
  match s with
  | EmptyString => true
  | String c s' => JsString.is_digit c && all_digits s'
  end.

(** From a state where [P] holds, [m] throws [e], and [Q] holds of the
    state then. *)
Definition throws {S A} (P : S -> Prop) (m : Js S A) (e : exn) (Q : S -> Prop) : Prop :=
  ∀ s, P s → (m s).1 = inl e ∧ Q (m s).2.

(** DuProprio pages that all announce a following page: if the site stops
    answering after them, the navigation from the last one times out. *)
Definition dup_page_three : DupDoc :=
  {| dup_items := [dup_second]; dup_active_is_last := false; dup_has_next := true |}.

Definition duproprio_stalls : Env :=
  {| config := sample_config;
     web := {| web_duproprio := λ _, [dup_page_one; dup_page_three];
               web_centris := web_centris sample_web;
               web_sutton := web_sutton sample_web |};
     now := sample_date |}.

(** A text is bare when no white-space character, of those of
    [JsString.white_space], is left at either end of it. *)
Definition starts_with_any (ws : list string) (s : string) : bool :=
  existsb (λ w, String.prefix w s) ws.

Definition starts_with_space (s : string) : bool :=
  starts_with_any JsString.white_space s.

Definition ends_with_space (s : string) : bool :=
  starts_with_any (List.map JsString.rev JsString.white_space) (JsString.rev s).

Definition bare (s : string) : bool :=
  negb (starts_with_space s) && negb (ends_with_space s).

Definition bare_if_present (text : option string) : Prop :=
  ∀ s, text = Some s → bare s = true.


(** * The helpers on sample values *)

Example parseInt_price : JsNumber.parseInt (JsString.digits_only "349 900 $") = Num 349900.
Proof. reflexivity. Qed.
Example parseInt_no_digit : JsNumber.parseInt (JsString.digits_only "Prix sur demande") = NaN.
Proof. reflexivity. Qed.
Example parseInt_null : JsNumber.parseInt (JsString.of_nullable None) = NaN.
Proof. reflexivity. Qed.
Example parseInt_hex : JsNumber.parseInt " -0x1F rest" = Num (-31).
Proof. reflexivity. Qed.
Example test_listing_plain : JsString.test_listing "listing-812345" = true.
Proof. reflexivity. Qed.
Example test_listing_null : JsString.test_listing (JsString.of_nullable None) = false.
Proof. reflexivity. Qed.
Example split_listing : JsString.split "-" "listing-812345" !! 1%nat = Some "812345".
Proof. reflexivity. Qed.
Example trim_city : JsString.trim "  Sherbrooke
 " = "Sherbrooke".
Proof. reflexivity. Qed.
Example trim_no_break_space :
  JsString.trim (JsString.utf8_2 "194" "160" +:+ "Magog" +:+ " "
                 +:+ JsString.utf8_3 "226" "128" "137")
  = "Magog".
Proof. reflexivity. Qed.
Example parseInt_no_break_space :
  JsNumber.parseInt (JsString.utf8_2 "194" "160" +:+ " 250000") = Num 250000.
Proof. reflexivity. Qed.
Example split_head_sutton : JsString.split_head " - " "Maison - 12 rue A" = "Maison".
Proof. reflexivity. Qed.
Example replace_size_centris :
  JsString.replace_size "&w=640&h=480&" "http://m/x?id=1&w=320&h=240&sm=c"
  = "http://m/x?id=1&w=640&h=480&sm=c".
Proof. reflexivity. Qed.

Example formatDate_pads : formatDate {| getFullYear := 2021; getMonth := 2; getDate := 7 |} = "2021-03-07".
Proof. reflexivity. Qed.

(** * Reasoning about computations *)

Section Logic.
Context {S : Type}.

Lemma keeps_ret {A} (I : S -> Prop) (a : A) : keeps I (mret a).
Proof. intros s H. exact H. Qed.

Lemma keeps_throw {A} (I : S -> Prop) e : keeps I (throw e : Js S A).
Proof. intros s H. exact H. Qed.

Lemma keeps_settle {A} (I : S -> Prop) (r : exn + A) : keeps I (settle r).
Proof. intros s H. exact H. Qed.

Lemma keeps_bind {A B} (I : S -> Prop) (m : Js S A) (f : A -> Js S B) :
  keeps I m → (∀ a, keeps I (f a)) → keeps I (m ≫= f).
Proof.
  intros Hm Hf s H. unfold mbind, Js_bind. specialize (Hm s H).
  destruct (m s) as [[e|a] s']; simpl in *; [exact Hm | by apply Hf].
Qed.

Lemma keeps_try_catch {A} (I : S -> Prop) (m : Js S A) h :
  keeps I m → (∀ e, keeps I (h e)) → keeps I (try_catch m h).
Proof.
  intros Hm Hh s H. unfold try_catch. specialize (Hm s H).
  destruct (m s) as [[e|a] s']; simpl in *; [by apply Hh | exact Hm].
Qed.

Lemma keeps_for_of {A} (I : S -> Prop) (l : list A) body :
  (∀ x, x ∈ l → keeps I (body x)) → keeps I (for_of l body).
Proof.
  induction l as [|x l IH]; intros Hb; simpl.
  - apply keeps_ret.
  - apply keeps_bind; [apply Hb; left | intros _; apply IH].
    intros y Hy. apply Hb. by right.
Qed.

Lemma returns_ret {A} (a : A) : returns (mret a : Js S A).
Proof. intros s. by exists a. Qed.

Lemma returns_bind {A B} (m : Js S A) (f : A -> Js S B) :
  returns m → (∀ a, returns (f a)) → returns (m ≫= f).
Proof.
  intros Hm Hf s. unfold mbind, Js_bind. destruct (Hm s) as [a Ha].
  destruct (m s) as [[e|a'] s']; simpl in *; [discriminate | apply Hf].
Qed.

Lemma returns_try_catch {A} (m : Js S A) h :
  (∀ e, returns (h e)) → returns (try_catch m h).
Proof.
  intros Hh s. unfold try_catch.
  destruct (m s) as [[e|a] s']; simpl; [apply Hh | by exists a].
Qed.

End Logic.

Section Frames.
Context {L : Type}.

Lemma keeps_glob {A} (I : St * L -> Prop) (m : Js St A) :
  (∀ l, keeps (λ st, I (st, l)) m) → keeps I (glob m).
Proof.
  intros Hm [st l] H. unfold glob. simpl.
  specialize (Hm l st H). by destruct (m st).
Qed.

Lemma keeps_get_local (I : St * L -> Prop) : keeps I get_local.
Proof. intros s H. exact H. Qed.

Lemma keeps_set_local (I : St * L -> Prop) f :
  (∀ st l, I (st, l) → I (st, f l)) → keeps I (set_local f).
Proof. intros Hf [st l] H. by apply Hf. Qed.

Lemma keeps_call {A} (J : St -> Prop) (locals : L) (m : Js (St * L) A) :
  keeps (λ s, J s.1) m → keeps J (call locals m).
Proof.
  intros Hm st H. unfold call. specialize (Hm (st, locals) H).
  by destruct (m (st, locals)).
Qed.

Lemma returns_glob {A} (m : Js St A) : returns m → returns (glob m : Js (St * L) A).
Proof.
  intros Hm [st l]. unfold glob. simpl. destruct (Hm st) as [a Ha].
  destruct (m st) as [r st']. simpl in *. by exists a.
Qed.

Lemma returns_get_local : returns (get_local : Js (St * L) L).
Proof. intros s. by eexists. Qed.

Lemma returns_call {A} (locals : L) (m : Js (St * L) A) :
  returns m → returns (call locals m).
Proof.
  intros Hm st. unfold call. destruct (Hm (st, locals)) as [a Ha].
  destruct (m (st, locals)) as [r s']. simpl in *. by exists a.
Qed.

End Frames.

Lemma keeps_modify (J : St -> Prop) f : (∀ st, J st → J (f st)) → keeps J (modify f).
Proof. intros Hf st H. by apply Hf. Qed.

Lemma returns_modify f : returns (modify f).
Proof. intros st. by eexists. Qed.

Lemma returns_verbose message extra : returns (verbose message extra).
Proof.
  intros st. unfold verbose.
  destruct (extra && _); [by eexists|]. destruct (_ || _); by eexists.
Qed.

Lemma keeps_glob_on_global {L A} (J : St -> Prop) (m : Js St A) :
  keeps J m → keeps (on_global (L := L) J) (glob m).
Proof. intros Hm. apply keeps_glob. intros l st H. by apply Hm. Qed.

Lemma keeps_set_local_on_global {L} (J : St -> Prop) (f : L -> L) :
  keeps (on_global J) (set_local f).
Proof. by apply keeps_set_local. Qed.

Lemma keeps_glob_on_local {L A} (P : L -> Prop) (m : Js St A) :
  keeps (on_local P) (glob m).
Proof. apply keeps_glob. intros l st H. exact H. Qed.

Lemma keeps_set_local_on_local {L} (P : L -> Prop) (f : L -> L) :
  (∀ l, P l → P (f l)) → keeps (on_local (L := L) P) (set_local f).
Proof. intros Hf. apply keeps_set_local. intros st l. apply Hf. Qed.

(** The unfolding of the two [do ... while] loops. *)
Lemma dup_do_while_unfold todaysDate pageNumber document upcoming :
  dup_do_while todaysDate pageNumber document upcoming =
  (glob (verbose ("Scanning page " +:+ pretty pageNumber +:+ "...") false);;
   glob (set_status "Looking for DuProprio listing items");;
   for_of (List.filter (λ n, negb (dup_is_sold n)) (dup_items document))
     (dup_item todaysDate);;
   if negb (dup_active_is_last document) then
     glob (set_status "Going to next page on DuPropio");;
     if dup_has_next document then
       match upcoming with
       | [] => throw TimeoutError
       | next :: later =>
           glob display;; dup_do_while todaysDate (S pageNumber) next later
       end
     else glob waitForNavigation_orphaned;; throw TypeError_null
   else mret tt).
Proof. by destruct upcoming. Qed.

Lemma sut_do_while_unfold todaysDate pageNumber document upcoming :
  sut_do_while todaysDate pageNumber document upcoming =
  (glob (verbose ("Scanning page " +:+ pretty pageNumber +:+ "...") false);;
   glob (set_status "Looking for Sutton listing items");;
   pageListings ← glob (sut_evaluate document todaysDate);
   set_local (λ listings, Object_assign listings (by_value <$> pageListings));;
   if negb (sut_next_hidden document) then
     glob (set_status "Going to next page on Sutton");;
     if sut_has_next document then
       match upcoming with
       | [] => throw TimeoutError
       | next :: later =>
           glob display;; sut_do_while todaysDate (S pageNumber) next later
       end
     else glob waitForNavigation_orphaned;; throw TypeError_null
   else mret tt).
Proof. by destruct upcoming. Qed.

(** One rule of the logic at a time, on whatever the computation starts with. *)
Ltac keeps_step :=
  first
    [ apply keeps_ret | apply keeps_throw | apply keeps_settle
    | apply keeps_get_local
    | apply keeps_bind; [| intros ?]
    | apply keeps_try_catch; [| intros ?]
    | match goal with
      | |- keeps _ (if ?b then _ else _) => destruct b
      | |- keeps _ (match ?x with _ => _ end) => destruct x
      end ].

Lemma scan_frame_refl st : scan_frame st st.
Proof. repeat split. exists []. simpl. by rewrite app_nil_r. Qed.

Lemma scan_frame_trans st0 st1 st2 :
  scan_frame st0 st1 → scan_frame st1 st2 → scan_frame st0 st2.
Proof.
  intros (?&?&?&?&?&?&?&?&l1&Hl1) (?&?&?&?&?&?&?&?&l2&Hl2).
  repeat split; try congruence.
  exists (l1 ++ l2)%list. by rewrite Hl2, Hl1, fmap_app, app_assoc.
Qed.

Lemma scan_frame_set_status st0 s : keeps (scan_frame st0) (set_status s).
Proof. apply keeps_modify. intros st H. exact H. Qed.

Lemma scan_frame_display st0 : keeps (scan_frame st0) display.
Proof. apply keeps_modify. intros st H. exact H. Qed.

Lemma scan_frame_verbose st0 message extra :
  keeps (scan_frame st0) (verbose message extra).
Proof.
  intros st H. unfold verbose.
  destruct (extra && _); [exact H|]. destruct (_ || _); [|exact H].
  simpl. destruct H as (?&?&?&?&?&?&?&?&l&Hl). repeat split; try done.
  exists (l ++ [message])%list. by rewrite Hl, fmap_app, app_assoc.
Qed.

Ltac frame_step :=
  first
    [ apply keeps_glob_on_global;
      first [ apply scan_frame_set_status | apply scan_frame_display
            | apply scan_frame_verbose ]
    | apply keeps_set_local_on_global
    | keeps_step ].

Lemma scan_frame_dup_item st0 todaysDate node :
  keeps (on_global (L := obj) (scan_frame st0)) (dup_item todaysDate node).
Proof. unfold dup_item. repeat frame_step. Qed.

Lemma scan_frame_dup_do_while st0 todaysDate pageNumber document upcoming :
  keeps (on_global (L := obj) (scan_frame st0))
    (dup_do_while todaysDate pageNumber document upcoming).
Proof.
  revert pageNumber document.
  induction upcoming as [|next later IH]; intros pageNumber document;
    rewrite dup_do_while_unfold.
  - repeat first [ apply keeps_for_of; intros ? _; apply scan_frame_dup_item
                 | frame_step ].
  - repeat first [ apply keeps_for_of; intros ? _; apply scan_frame_dup_item
                 | apply IH | frame_step ].
Qed.

Lemma scan_frame_scanDuproprioListings st0 env :
  keeps (scan_frame st0) (scanDuproprioListings env).
Proof.
  unfold scanDuproprioListings. apply keeps_call.
  repeat first [ apply scan_frame_dup_do_while | frame_step ].
Qed.

Lemma scan_frame_sut_item st0 todaysDate node :
  keeps (on_global (L := obj) (scan_frame st0)) (sut_item todaysDate node).
Proof. unfold sut_item. repeat frame_step. Qed.

Lemma scan_frame_sut_evaluate st0 document todaysDate :
  keeps (scan_frame st0) (sut_evaluate document todaysDate).
Proof.
  unfold sut_evaluate. apply keeps_call.
  repeat first [ apply keeps_for_of; intros ? _; apply scan_frame_sut_item
               | frame_step ].
Qed.

Lemma scan_frame_sut_do_while st0 todaysDate pageNumber document upcoming :
  keeps (on_global (L := obj) (scan_frame st0))
    (sut_do_while todaysDate pageNumber document upcoming).
Proof.
  revert pageNumber document.
  induction upcoming as [|next later IH]; intros pageNumber document;
    rewrite sut_do_while_unfold.
  - repeat first [ apply keeps_glob_on_global, scan_frame_sut_evaluate
                 | frame_step ].
  - repeat first [ apply keeps_glob_on_global, scan_frame_sut_evaluate
                 | apply IH | frame_step ].
Qed.

Lemma scan_frame_scanSuttonListings st0 env :
  keeps (scan_frame st0) (scanSuttonListings env).
Proof.
  unfold scanSuttonListings. apply keeps_call.
  repeat first [ apply scan_frame_sut_do_while | frame_step ].
Qed.

Lemma scan_frame_cen_item st0 minPrice maxPrice todaysDate node :
  keeps (on_global (L := obj) (scan_frame st0))
    (cen_item minPrice maxPrice todaysDate node).
Proof. unfold cen_item. repeat frame_step. Qed.

(** An invariant of the items' loop body and of a click is one of the
    whole [while]. *)
Lemma keeps_cen_while (I : St * obj -> Prop) minPrice maxPrice todaysDate
    pageNumber document upcoming :
  (∀ doc node, doc ∈ document :: upcoming → node ∈ cen_items doc →
     keeps I (cen_item minPrice maxPrice todaysDate node)) →
  keeps I (glob display) →
  keeps I (cen_while minPrice maxPrice todaysDate pageNumber document upcoming).
Proof.
  intros Hitem Hclick.
  funelim (cen_while minPrice maxPrice todaysDate pageNumber document upcoming).
  - apply keeps_ret.
  - apply keeps_bind; [| intros _].
    + apply keeps_for_of. intros node Hnode. apply (Hitem document); [left | done].
    + match goal with
      | IH : () → St * obj → _ |- keeps _ _ =>
          intros s Hs; exact (IH tt s _ Hitem Hclick s Hs)
      end.
  - apply keeps_throw.
  - apply keeps_bind; [exact Hclick | intros _].
    apply keeps_bind; [| intros _].
    + apply keeps_for_of. intros node Hnode.
      apply (Hitem next); [right; left | done].
    + match goal with
      | IH : () → () → St * obj → _ |- keeps _ _ =>
          intros s Hs; refine (IH tt tt s _ _ Hclick s Hs)
      end.
      intros doc node Hdoc. apply Hitem. by right.
Qed.

Lemma scan_frame_cen_evaluate st0 minPrice maxPrice todaysDate document upcoming :
  keeps (scan_frame st0) (cen_evaluate minPrice maxPrice todaysDate document upcoming).
Proof.
  unfold cen_evaluate. apply keeps_call.
  repeat first [ apply keeps_cen_while;
                   [ intros ? ? _ _; apply scan_frame_cen_item
                   | apply keeps_glob_on_global, scan_frame_display ]
               | frame_step ].
Qed.

Lemma scan_frame_scanCentrisListings st0 env :
  keeps (scan_frame st0) (scanCentrisListings env).
Proof.
  unfold scanCentrisListings. apply keeps_call.
  repeat first [ apply keeps_glob_on_global, scan_frame_cen_evaluate | frame_step ].
Qed.

Lemma scan_frame_scanAll st0 env : keeps (scan_frame st0) (scanAll env).
Proof.
  unfold scanAll.
  repeat first [ apply scan_frame_scanDuproprioListings
               | apply scan_frame_scanCentrisListings
               | apply scan_frame_scanSuttonListings | keeps_step ].
Qed.

(** ** Values returned *)

Section Yields.
Context {S : Type}.

Lemma yields_settle {A} (r : exn + A) : yields (S := S) (settle r) (λ a, r = inr a).
Proof. intros s a H. exact H. Qed.

Lemma keeps_bind_yields {A B} (I : S -> Prop) (Q : A -> Prop) (m : Js S A) (f : A -> Js S B) :
  keeps I m → yields m Q → (∀ a, Q a → keeps I (f a)) → keeps I (m ≫= f).
Proof.
  intros Hm HQ Hf s H. unfold mbind, Js_bind.
  specialize (Hm s H). specialize (HQ s).
  destruct (m s) as [[e|a] s']; simpl in *; [exact Hm|].
  apply Hf; [by apply HQ | exact Hm].
Qed.

End Yields.

Section Locals.
Context {L : Type}.

Lemma returns_local_get : returns_local (L := L) get_local.
Proof. intros s a H. unfold get_local in *. simpl in *. congruence. Qed.

Lemma returns_local_bind {A} (m : Js (St * L) A) (k : A -> Js (St * L) L) :
  (∀ a, returns_local (k a)) → returns_local (m ≫= k).
Proof.
  intros Hk s a. unfold mbind, Js_bind.
  destruct (m s) as [[e|x] s']; simpl; [discriminate | apply Hk].
Qed.

Lemma yields_call (P : L -> Prop) (locals : L) (m : Js (St * L) L) :
  P locals → keeps (on_local P) m → returns_local m → yields (call locals m) P.
Proof.
  intros H0 Hm Hr st a. unfold call.
  specialize (Hm (st, locals) H0). specialize (Hr (st, locals) a).
  destruct (m (st, locals)) as [r s']. simpl in *.
  intros ->. by rewrite Hr.
Qed.

Lemma yields_glob {A} (m : Js St A) (Q : A -> Prop) :
  yields m Q → yields (glob m : Js (St * L) A) Q.
Proof.
  intros Hm [st l] a. unfold glob. simpl.
  specialize (Hm st a). destruct (m st). simpl in *. exact Hm.
Qed.

End Locals.

Ltac returns_local_step :=
  repeat first [ apply returns_local_get | apply returns_local_bind; intros ? ].

(** ** The three scans never throw *)

Ltac returns_step :=
  first
    [ apply returns_ret | apply returns_get_local | apply returns_modify
    | apply returns_verbose
    | apply returns_glob | apply returns_call
    | apply returns_try_catch; intros ?
    | apply returns_bind; [| intros ?] ].

Lemma returns_scanDuproprioListings env : returns (scanDuproprioListings env).
Proof. unfold scanDuproprioListings, set_status. repeat returns_step. Qed.

Lemma returns_scanCentrisListings env : returns (scanCentrisListings env).
Proof. unfold scanCentrisListings, set_status. repeat returns_step. Qed.

Lemma returns_scanSuttonListings env : returns (scanSuttonListings env).
Proof. unfold scanSuttonListings, set_status. repeat returns_step. Qed.

Lemma returns_scanAll env : returns (scanAll env).
Proof.
  unfold scanAll.
  repeat first [ apply returns_scanDuproprioListings
               | apply returns_scanCentrisListings
               | apply returns_scanSuttonListings | returns_step ].
Qed.

(** * What the scans put in their mappings *)

Lemma map_Forall_Object_assign (P : string -> Listing -> Prop) target src :
  map_Forall P target → map_Forall P src → map_Forall P (Object_assign target src).
Proof.
  intros Ht Hs k l. unfold Object_assign. rewrite lookup_union_Some_raw.
  intros [H | [_ H]]; [by apply Hs | by apply Ht].
Qed.

Lemma dup_item_entries docs todaysDate doc node :
  doc ∈ docs → node ∈ dup_items doc → dup_is_sold node = false →
  keeps (entries (dup_entry docs)) (dup_item todaysDate node).
Proof.
  intros Hdoc Hnode Hsold. unfold dup_item.
  destruct (dup_attr_id node) as [s|] eqn:Hid; simpl.
  2: { apply keeps_ret. }
  destruct (JsString.test_listing s) eqn:Htest; simpl; [| apply keeps_ret].
  apply keeps_bind; [apply keeps_glob_on_local | intros _].
  eapply keeps_bind_yields; [apply keeps_settle | apply yields_settle |].
  intros l Hl. apply keeps_set_local_on_local. intros listings Hall.
  apply map_Forall_insert_2; [| exact Hall].
  unfold dup_evaluate in Hl. rewrite Hid in Hl. simpl in Hl.
  destruct (dup_price node) as [priceText|] eqn:Hprice; [| discriminate].
  destruct (dup_img node) as [src|] eqn:Himg; [| discriminate].
  destruct (dup_link node) as [href|] eqn:Hlink; [| discriminate].
  injection Hl as <-.
  exists doc, node, s, priceText, src, href. by repeat split.
Qed.

Lemma dup_do_while_entries docs todaysDate pageNumber document upcoming :
  (∀ d, d ∈ document :: upcoming → d ∈ docs) →
  keeps (entries (dup_entry docs))
    (dup_do_while todaysDate pageNumber document upcoming).
Proof.
  revert pageNumber document.
  induction upcoming as [|next later IH]; intros pageNumber document Hdocs;
    rewrite dup_do_while_unfold.
  all: apply keeps_bind; [apply keeps_glob_on_local | intros _].
  all: apply keeps_bind; [apply keeps_glob_on_local | intros _].
  all: apply keeps_bind; [| intros _].
  1,3: apply keeps_for_of; intros node Hnode;
       apply list_elem_of_In, filter_In in Hnode; destruct Hnode as [Hin Hsold];
       apply (dup_item_entries docs todaysDate document);
       [ apply Hdocs; left | by apply list_elem_of_In
       | by apply negb_true_iff in Hsold ].
  - repeat first [ apply keeps_glob_on_local | keeps_step ].
  - repeat first [ apply keeps_glob_on_local
                 | apply IH; intros d Hd; apply Hdocs; by right
                 | keeps_step ].
Qed.

Theorem scanDuproprioListings_entries env :
  yields (scanDuproprioListings env)
    (map_Forall (dup_entry (web_duproprio (web env) (duproprio_url (config env))))).
Proof.
  unfold scanDuproprioListings. apply yields_call.
  - apply map_Forall_empty.
  - destruct (web_duproprio _ _) as [|document upcoming] eqn:Hsite.
    + repeat first [ apply keeps_glob_on_local | keeps_step ].
    + repeat first [ apply keeps_glob_on_local
                   | apply dup_do_while_entries; by intros d Hd
                   | keeps_step ].
  - returns_local_step.
Qed.

Lemma map_Forall_by_value (P : string -> Listing -> Prop) (m : obj) :
  map_Forall (in_page P) m → map_Forall P (by_value <$> m).
Proof. intros H. by apply map_Forall_fmap. Qed.

Lemma sut_item_entries docs todaysDate doc node :
  doc ∈ docs → node ∈ sut_items doc →
  keeps (entries (in_page (sut_entry docs))) (sut_item todaysDate node).
Proof.
  intros Hdoc Hnode. unfold sut_item.
  destruct (sut_vendu node) eqn:Hsold; [apply keeps_ret|].
  destruct (sut_img node) as [src|] eqn:Himg; [| apply keeps_throw].
  destruct (sut_details node) as [[text href]|] eqn:Hlink; [| apply keeps_throw].
  apply keeps_set_local_on_local. intros listings Hall.
  apply map_Forall_insert_2; [| exact Hall].
  exists doc, node, text, href, src. by repeat split.
Qed.

Lemma sut_evaluate_entries docs todaysDate document :
  document ∈ docs →
  yields (sut_evaluate document todaysDate) (map_Forall (in_page (sut_entry docs))).
Proof.
  intros Hdoc. unfold sut_evaluate. apply yields_call.
  - apply map_Forall_empty.
  - apply keeps_bind; [| intros _; apply keeps_get_local].
    apply keeps_for_of. intros node Hnode.
    by apply (sut_item_entries docs todaysDate document).
  - returns_local_step.
Qed.

Lemma sut_do_while_entries docs todaysDate pageNumber document upcoming :
  (∀ d, d ∈ document :: upcoming → d ∈ docs) →
  keeps (entries (sut_entry docs))
    (sut_do_while todaysDate pageNumber document upcoming).
Proof.
  revert pageNumber document.
  induction upcoming as [|next later IH]; intros pageNumber document Hdocs;
    rewrite sut_do_while_unfold.
  all: apply keeps_bind; [apply keeps_glob_on_local | intros _].
  all: apply keeps_bind; [apply keeps_glob_on_local | intros _].
  all: eapply keeps_bind_yields;
       [ apply keeps_glob_on_local
       | apply yields_glob, (sut_evaluate_entries docs), Hdocs; left
       | intros pageListings Hpage ].
  all: apply keeps_bind;
       [ apply keeps_set_local_on_local; intros listings Hall;
         by apply map_Forall_Object_assign, map_Forall_by_value
       | intros _ ].
  - repeat first [ apply keeps_glob_on_local | keeps_step ].
  - repeat first [ apply keeps_glob_on_local
                 | apply IH; intros d Hd; apply Hdocs; by right
                 | keeps_step ].
Qed.

Theorem scanSuttonListings_entries env :
  yields (scanSuttonListings env)
    (map_Forall (sut_entry (web_sutton (web env) (sutton_url (config env))))).
Proof.
  unfold scanSuttonListings. apply yields_call.
  - apply map_Forall_empty.
  - destruct (web_sutton _ _) as [|document upcoming] eqn:Hsite.
    + repeat first [ apply keeps_glob_on_local | keeps_step ].
    + repeat first [ apply keeps_glob_on_local
                   | apply sut_do_while_entries; by intros d Hd
                   | keeps_step ].
  - returns_local_step.
Qed.

Lemma cen_item_entries docs minPrice maxPrice todaysDate doc node :
  doc ∈ docs → node ∈ cen_items doc →
  keeps (entries (in_page (cen_entry docs minPrice maxPrice)))
    (cen_item minPrice maxPrice todaysDate node).
Proof.
  intros Hdoc Hnode. unfold cen_item.
  destruct (cen_details node) as [[listingId href]|] eqn:Hlink; [| apply keeps_throw].
  destruct (cen_img node) as [src|] eqn:Himg; [| apply keeps_throw].
  destruct (cen_price node) as [content|] eqn:Hprice; [| apply keeps_throw].
  destruct (JsNumber.lt _ minPrice) eqn:Hlt; simpl; [apply keeps_ret|].
  destruct (JsNumber.gt _ maxPrice) eqn:Hgt; simpl; [apply keeps_ret|].
  apply keeps_set_local_on_local. intros listings Hall.
  apply map_Forall_insert_2; [| exact Hall].
  exists doc, node, listingId, href, src, content. by repeat split.
Qed.

Lemma cen_evaluate_entries docs minPrice maxPrice todaysDate document upcoming :
  (∀ d, d ∈ document :: upcoming → d ∈ docs) →
  yields (cen_evaluate minPrice maxPrice todaysDate document upcoming)
    (map_Forall (in_page (cen_entry docs minPrice maxPrice))).
Proof.
  intros Hdocs. unfold cen_evaluate. apply yields_call.
  - apply map_Forall_empty.
  - apply keeps_bind; [| intros _; apply keeps_get_local].
    apply keeps_cen_while; [| apply keeps_glob_on_local].
    intros doc node Hdoc Hnode. apply (cen_item_entries docs _ _ _ doc); auto.
  - returns_local_step.
Qed.

Theorem scanCentrisListings_entries env :
  yields (scanCentrisListings env)
    (map_Forall (cen_entry (web_centris (web env) (centris_url (config env)))
                   (centris_minPrice (config env)) (centris_maxPrice (config env)))).
Proof.
  unfold scanCentrisListings. apply yields_call.
  - apply map_Forall_empty.
  - destruct (web_centris _ _) as [|document upcoming] eqn:Hsite.
    + repeat first [ apply keeps_glob_on_local | keeps_step ].
    + apply keeps_bind; [apply keeps_glob_on_local | intros _].
      apply keeps_bind; [apply keeps_glob_on_local | intros _].
      apply keeps_bind; [| intros _; apply keeps_get_local].
      apply keeps_try_catch; [| intros e; apply keeps_glob_on_local].
      apply keeps_bind; [apply keeps_glob_on_local | intros _].
      eapply keeps_bind_yields;
        [ apply keeps_glob_on_local
        | apply yields_glob, (cen_evaluate_entries (document :: upcoming));
          by intros d Hd
        | intros scannedListings Hscanned ].
      apply keeps_bind;
        [ apply keeps_set_local_on_local; intros _ _;
          by apply map_Forall_by_value
        | intros _ ].
      repeat first [ apply keeps_glob_on_local | keeps_step ].
  - returns_local_step.
Qed.

(** * The reconciliation with listings.json (scan.js 31-41) *)

Lemma is_defined_own (o : obj) k l : o !! k = Some l → is_defined o k = true.
Proof.
  intros H. unfold is_defined. apply orb_true_iff. left.
  apply bool_decide_eq_true. by exists l.
Qed.

Lemma is_defined_false (o : obj) k :
  is_defined o k = false → o !! k = None ∧ k ∉ object_prototype.
Proof.
  unfold is_defined. intros H. apply orb_false_iff in H as [H1 H2].
  apply bool_decide_eq_false in H1, H2. split; [| exact H2].
  destruct (o !! k) eqn:E; [| done]. exfalso. apply H1. by eexists.
Qed.

Lemma is_defined_insert_ne (o : obj) k k' l :
  k ≠ k' → is_defined (<[k := l]> o) k' = is_defined o k'.
Proof. intros H. unfold is_defined. by rewrite lookup_insert_ne. Qed.

Lemma keep_if_new_run listing st (newListings : obj) :
  keep_if_new listing (st, newListings) =
  if is_defined (savedListings st) (id listing)
  then (inr tt, (st, newListings))
  else (inr tt, ((save_listing (id listing) listing st).2,
                 <[id listing := listing]> newListings)).
Proof.
  unfold keep_if_new, mbind, Js_bind, glob. simpl.
  by destruct (is_defined _ _).
Qed.

Lemma for_of_cons {S A} (x : A) (l : list A) (body : A -> Js S unit) s :
  for_of (x :: l) body s =
  match body x s with
  | (inr _, s') => for_of l body s'
  | (inl e, s') => (inl e, s')
  end.
Proof. reflexivity. Qed.

(** The loop, from any [savedListings] and [newListings]: an id that is
    defined at the start is left alone; any other id gets, in both
    mappings, the first listing of the list that carries it. *)
Lemma for_of_keep_if_new ls : ∀ st (newListings : obj),
  ∃ st' newListings',
    for_of ls keep_if_new (st, newListings) = (inr tt, (st', newListings')) ∧
    same_but_saved st st' ∧
    (∀ k, savedListings st' !! k =
          if is_defined (savedListings st) k then savedListings st !! k
          else find_id k ls) ∧
    (∀ k, newListings' !! k =
          if is_defined (savedListings st) k then newListings !! k
          else match find_id k ls with
               | Some l => Some l
               | None => newListings !! k
               end).
Proof.
  induction ls as [|l ls IH]; intros st newListings.
  - exists st, newListings. split; [done|]. split; [by repeat split|].
    split; intros k; destruct (is_defined _ k) eqn:E; try done.
    by apply is_defined_false in E as [-> _].
  - rewrite for_of_cons, keep_if_new_run.
    destruct (is_defined (savedListings st) (id l)) eqn:Hl.
    + destruct (IH st newListings) as (st' & new' & Hrun & Hsame & Hsaved & Hnew).
      exists st', new'. split; [done|]. split; [done|].
      split; intros k; [rewrite Hsaved | rewrite Hnew];
        destruct (is_defined _ k) eqn:E; try done;
        unfold find_id; simpl; case_bool_decide; try done; congruence.
    + destruct (IH (save_listing (id l) l st).2 (<[id l := l]> newListings))
        as (st' & new' & Hrun & Hsame & Hsaved & Hnew).
      exists st', new'. split; [done|]. split.
      { destruct Hsame as (?&?&?&?&?&?&?&?&?&?&?). by repeat split. }
      simpl in Hsaved, Hnew.
      split; intros k; [rewrite Hsaved | rewrite Hnew].
      * destruct (decide (id l = k)) as [<-|Hne].
        -- rewrite (is_defined_own _ _ l), Hl by apply lookup_insert_eq.
           rewrite lookup_insert_eq. unfold find_id. simpl.
           by rewrite bool_decide_eq_true_2.
        -- rewrite is_defined_insert_ne, lookup_insert_ne by done.
           unfold find_id at 2. simpl. rewrite bool_decide_eq_false_2 by done.
           done.
      * destruct (decide (id l = k)) as [<-|Hne].
        -- rewrite (is_defined_own _ _ l), Hl by apply lookup_insert_eq.
           rewrite lookup_insert_eq. unfold find_id. simpl.
           by rewrite bool_decide_eq_true_2.
        -- rewrite is_defined_insert_ne, lookup_insert_ne by done.
           unfold find_id at 2. simpl. rewrite bool_decide_eq_false_2 by done.
           done.
Qed.

(** When every id is already defined the loop changes nothing. *)
Lemma for_of_keep_if_new_known ls st (newListings : obj) :
  (∀ l, l ∈ ls → is_defined (savedListings st) (id l) = true) →
  for_of ls keep_if_new (st, newListings) = (inr tt, (st, newListings)).
Proof.
  induction ls as [|l ls IH]; intros Hknown; [done|].
  rewrite for_of_cons, keep_if_new_run, Hknown by left.
  apply IH. intros l' Hl'. apply Hknown. by right.
Qed.

Lemma reconcile_run scannedListings st :
  reconcile scannedListings st =
  let r := for_of (Object_values scannedListings) keep_if_new (st, ∅) in
  (inr r.2.2, r.2.1).
Proof.
  unfold reconcile, call, mbind, Js_bind.
  destruct (for_of_keep_if_new (Object_values scannedListings) st ∅)
    as (st' & new' & -> & _).
  reflexivity.
Qed.

Lemma find_id_elem k l ls : l ∈ ls → id l = k → is_Some (find_id k ls).
Proof.
  intros Hin Hid. unfold find_id.
  destruct (List.find _ ls) eqn:E; [by eexists|].
  apply list_elem_of_In in Hin.
  pose proof (find_none _ _ E l Hin) as H. simpl in H.
  by rewrite bool_decide_eq_true_2 in H.
Qed.

Lemma find_id_Object_values (M : obj) k :
  keyed_by_id M → find_id k (Object_values M) = M !! k.
Proof.
  intros Hkeyed. unfold find_id, Object_values.
  destruct (List.find _ _) as [l|] eqn:E.
  - apply find_some in E as [Hin Hid].
    apply bool_decide_eq_true in Hid.
    apply list_elem_of_In, list_elem_of_fmap in Hin as [[k' l'] [-> Hin]].
    apply elem_of_map_to_list in Hin. simpl in *.
    rewrite <- Hid, (Hkeyed k' l' Hin). by rewrite Hin.
  - destruct (M !! k) as [l|] eqn:Hk; [| done].
    assert (Hin : In l (map_to_list M).*2).
    { apply list_elem_of_In, list_elem_of_fmap. exists (k, l).
      split; [done | by apply elem_of_map_to_list]. }
    pose proof (find_none _ _ E l Hin) as H. simpl in H.
    rewrite bool_decide_eq_true_2 in H; [done | by apply Hkeyed].
Qed.

(** * Ids and their source prefix *)

Lemma source_id_not_inherited k : source_id k → k ∉ object_prototype.
Proof.
  intros [[n ->] | [[n ->] | [n ->]]] H; unfold object_prototype in H;
    repeat (apply elem_of_cons in H as [H | H]; [simpl in H; discriminate |]);
    by apply elem_of_nil in H.
Qed.

Lemma prefixes_apart_dc k : has_prefix "duproprio-" k → has_prefix "centris-" k → False.
Proof. intros [n ->] [n' H]. simpl in H. discriminate. Qed.

Lemma prefixes_apart_ds k : has_prefix "duproprio-" k → has_prefix "sutton-" k → False.
Proof. intros [n ->] [n' H]. simpl in H. discriminate. Qed.

Lemma prefixes_apart_cs k : has_prefix "centris-" k → has_prefix "sutton-" k → False.
Proof. intros [n ->] [n' H]. simpl in H. discriminate. Qed.

Lemma dup_entry_id docs k l :
  dup_entry docs k l → has_prefix "duproprio-" k ∧ id l = k.
Proof.
  intros (doc & node & s & p & src & href & _ & _ & _ & _ & _ & _ & _ & _ & -> & Hid & _).
  split; [by eexists | done].
Qed.

Lemma sut_entry_id docs k l :
  sut_entry docs k l → has_prefix "sutton-" k ∧ id l = k.
Proof.
  intros (doc & node & text & href & src & _ & _ & _ & _ & _ & -> & Hid & _).
  split; [by eexists | done].
Qed.

Lemma cen_entry_id docs minPrice maxPrice k l :
  cen_entry docs minPrice maxPrice k l → has_prefix "centris-" k ∧ id l = k.
Proof.
  intros (doc & node & i & href & src & c & _ & _ & _ & _ & _ & -> & Hid & _).
  split; [by eexists | done].
Qed.

Lemma scan_mapping_Object_assign target src :
  scan_mapping target → scan_mapping src → scan_mapping (Object_assign target src).
Proof. apply map_Forall_Object_assign. Qed.

(** The runs of the three scans, one after the other, as [scanAll] makes
    them, with what each mapping holds. *)
Lemma scanAll_run env st :
  ∃ d st1 c st2 s st3,
    scanDuproprioListings env st = (inr d, st1) ∧
    scanCentrisListings env st1 = (inr c, st2) ∧
    scanSuttonListings env st2 = (inr s, st3) ∧
    scanAll env st = (inr (Object_assign (Object_assign d c) s), st3) ∧
    map_Forall (dup_entry (web_duproprio (web env) (duproprio_url (config env)))) d ∧
    map_Forall (cen_entry (web_centris (web env) (centris_url (config env)))
                  (centris_minPrice (config env)) (centris_maxPrice (config env))) c ∧
    map_Forall (sut_entry (web_sutton (web env) (sutton_url (config env)))) s.
Proof.
  destruct (returns_scanDuproprioListings env st) as [d Hd].
  pose proof (scanDuproprioListings_entries env st d Hd) as Pd.
  destruct (scanDuproprioListings env st) as [r1 st1] eqn:E1. simpl in Hd. subst r1.
  destruct (returns_scanCentrisListings env st1) as [c Hc].
  pose proof (scanCentrisListings_entries env st1 c Hc) as Pc.
  destruct (scanCentrisListings env st1) as [r2 st2] eqn:E2. simpl in Hc. subst r2.
  destruct (returns_scanSuttonListings env st2) as [s Hs].
  pose proof (scanSuttonListings_entries env st2 s Hs) as Ps.
  destruct (scanSuttonListings env st2) as [r3 st3] eqn:E3. simpl in Hs. subst r3.
  exists d, st1, c, st2, s, st3. repeat split; try done.
  unfold scanAll, mbind, Js_bind. by rewrite E1, E2, E3.
Qed.

Lemma scanAll_scan_mapping env st M st' :
  scanAll env st = (inr M, st') → scan_mapping M.
Proof.
  destruct (scanAll_run env st) as (d&st1&c&st2&s&st3&_&_&_&Hall&Pd&Pc&Ps).
  rewrite Hall. intros [= <- <-].
  repeat apply scan_mapping_Object_assign.
  - intros k l H. destruct (dup_entry_id _ _ _ (Pd k l H)) as [Hp Hid].
    split; [done | by left].
  - intros k l H. destruct (cen_entry_id _ _ _ _ _ (Pc k l H)) as [Hp Hid].
    split; [done | right; by left].
  - intros k l H. destruct (sut_entry_id _ _ _ (Ps k l H)) as [Hp Hid].
    split; [done | right; by right].
Qed.

Lemma sample_scanned_scan_mapping : scan_mapping sample_scanned.
Proof.
  unfold sample_scanned. apply map_Forall_insert_2.
  - split; [done |]. right; right. by exists "7".
  - apply map_Forall_singleton. split; [done |]. left. by exists "812345".
Qed.

(** * The reconciliation: what is new, what is kept *)

(** C1, as the script does it: for a merged scan mapping M and the saved
    mapping P, the new records are the entries of M whose id P does not
    have; afterwards the saved mapping has P's own record under every id of
    P (a listing seen again is not refreshed) and M's record under every
    other id of M. *)
Theorem reconcile_keeps_first_seen (M : obj) (st : St) :
  scan_mapping M →
  ∃ newListings,
    (reconcile M st).1 = inr newListings ∧
    (∀ k, newListings !! k =
          match savedListings st !! k with Some _ => None | None => M !! k end) ∧
    (∀ k, savedListings (reconcile M st).2 !! k =
          match savedListings st !! k with Some v => Some v | None => M !! k end).
Proof.
  intros HM. rewrite reconcile_run.
  assert (Hkeyed : keyed_by_id M) by (intros k l H; by destruct (HM k l H)).
  destruct (for_of_keep_if_new (Object_values M) st ∅)
    as (st' & new' & Hrun & _ & Hsaved & Hnew).
  rewrite Hrun. simpl. exists new'. split; [done|].
  assert (Hinherited : ∀ k, is_defined (savedListings st) k = true →
            savedListings st !! k = None → M !! k = None).
  { intros k Hdef Hnone. destruct (M !! k) as [l|] eqn:Hk; [| done].
    exfalso. destruct (HM k l Hk) as [_ Hsrc].
    apply (source_id_not_inherited k Hsrc).
    unfold is_defined in Hdef. apply orb_true_iff in Hdef as [Hd | Hd].
    - apply bool_decide_eq_true in Hd. rewrite Hnone in Hd. by destruct Hd.
    - by apply bool_decide_eq_true in Hd. }
  split; intros k; [rewrite Hnew | rewrite Hsaved];
    rewrite find_id_Object_values by done;
    destruct (is_defined (savedListings st) k) eqn:Hdef.
  - rewrite lookup_empty. destruct (savedListings st !! k) eqn:E; [done|].
    symmetry. by apply Hinherited.
  - apply is_defined_false in Hdef as [-> _]. rewrite lookup_empty.
    by destruct (M !! k).
  - destruct (savedListings st !! k) eqn:E; [done|].
    symmetry. by apply Hinherited.
  - by apply is_defined_false in Hdef as [-> _].
Qed.

(** The same, on the saved mapping and the merged mapping of the samples. *)
Lemma reconcile_keeps_first_seen_witness :
  scan_mapping sample_scanned ∧
  ∃ newListings,
    (reconcile sample_scanned (initial sample_saved false false)).1 = inr newListings ∧
    (∀ k, newListings !! k =
          match savedListings (initial sample_saved false false) !! k with
          | Some _ => None
          | None => sample_scanned !! k
          end) ∧
    (∀ k, savedListings (reconcile sample_scanned (initial sample_saved false false)).2 !! k =
          match savedListings (initial sample_saved false false) !! k with
          | Some v => Some v
          | None => sample_scanned !! k
          end).
Proof.
  split.
  - exact sample_scanned_scan_mapping.
  - exact (reconcile_keeps_first_seen sample_scanned (initial sample_saved false false)
             sample_scanned_scan_mapping).
Defined.

(** C1 as the specification words it fails: the listing saved at 215000 and
    scanned again at 200000 is still saved at 215000 after the run, so the
    saved mapping does not hold the scanned record under every scanned id. *)
Lemma reconcile_does_not_refresh :
  ¬ (∀ k l, sample_scanned !! k = Some l →
       savedListings (reconcile sample_scanned (initial sample_saved false false)).2 !! k
       = Some l).
Proof.
  intros H. specialize (H "duproprio-812345" listing_rescanned eq_refl).
  vm_compute in H. discriminate H.
Qed.

(** C5: a second reconciliation of the same merged mapping, against the
    saved mapping the first one left, finds nothing new. *)
Theorem reconcile_twice_nothing_new (M : obj) (st : St) :
  (reconcile M (reconcile M st).2).1 = inr ∅.
Proof.
  rewrite (reconcile_run M (reconcile M st).2).
  rewrite for_of_keep_if_new_known; [done|].
  intros l Hl. rewrite reconcile_run.
  destruct (for_of_keep_if_new (Object_values M) st ∅)
    as (st' & new' & Hrun & _ & Hsaved & _).
  rewrite Hrun. simpl.
  destruct (is_defined (savedListings st) (id l)) eqn:Hdef.
  - unfold is_defined in *. rewrite Hsaved. unfold is_defined. by rewrite Hdef.
  - destruct (find_id_elem (id l) l (Object_values M) Hl eq_refl) as [l' Hl'].
    apply (is_defined_own _ _ l'). rewrite Hsaved, Hdef. done.
Qed.

(** C10: the reconciliation removes nothing: every entry of the saved
    mapping is an entry of the saved mapping it leaves, for any merged
    mapping, so the store only grows. *)
Theorem reconcile_never_forgets (M : obj) (st : St) :
  savedListings st ⊆ savedListings (reconcile M st).2.
Proof.
  apply map_subseteq_spec. intros k v Hk. rewrite reconcile_run.
  destruct (for_of_keep_if_new (Object_values M) st ∅)
    as (st' & new' & Hrun & _ & Hsaved & _).
  rewrite Hrun. simpl. by rewrite Hsaved, (is_defined_own _ _ v).
Qed.

(** * Ids: one prefix per source *)

(** Whatever the sites hold, every key of a scan's mapping starts with the
    prefix of its source, the record under it carries that key as its id,
    and the three mappings that [scanAll] merges have no key in common. *)
Lemma ids_carry_their_source (env : Env) (st : St) :
  ∃ d st1 c st2 s st3,
    scanDuproprioListings env st = (inr d, st1) ∧
    scanCentrisListings env st1 = (inr c, st2) ∧
    scanSuttonListings env st2 = (inr s, st3) ∧
    map_Forall (λ k l, has_prefix "duproprio-" k ∧ id l = k) d ∧
    map_Forall (λ k l, has_prefix "centris-" k ∧ id l = k) c ∧
    map_Forall (λ k l, has_prefix "sutton-" k ∧ id l = k) s ∧
    d ##ₘ c ∧ d ##ₘ s ∧ c ##ₘ s.
Proof.
  destruct (scanAll_run env st) as (d&st1&c&st2&s&st3&Hd&Hc&Hs&_&Pd&Pc&Ps).
  exists d, st1, c, st2, s, st3.
  assert (Qd : map_Forall (λ k l, has_prefix "duproprio-" k ∧ id l = k) d).
  { intros k l H. exact (dup_entry_id _ _ _ (Pd k l H)). }
  assert (Qc : map_Forall (λ k l, has_prefix "centris-" k ∧ id l = k) c).
  { intros k l H. exact (cen_entry_id _ _ _ _ _ (Pc k l H)). }
  assert (Qs : map_Forall (λ k l, has_prefix "sutton-" k ∧ id l = k) s).
  { intros k l H. exact (sut_entry_id _ _ _ (Ps k l H)). }
  do 3 (split; [done|]).
  split; [exact Qd|]. split; [exact Qc|]. split; [exact Qs|].
  repeat split; apply map_disjoint_spec; intros k x y Hx Hy.
  - exact (prefixes_apart_dc k (proj1 (Qd k x Hx)) (proj1 (Qc k y Hy))).
  - exact (prefixes_apart_ds k (proj1 (Qd k x Hx)) (proj1 (Qs k y Hy))).
  - exact (prefixes_apart_cs k (proj1 (Qc k x Hx)) (proj1 (Qs k y Hy))).
Qed.

(** C8, at two DuProprio items whose id attribute is [featured-listing-]
    and their number: the pattern of line 85, which is not anchored, accepts
    both, and the piece of the attribute that line 89 takes is [listing],
    not the number.  Both records are filed under [duproprio-listing], where
    the second replaces the first: the id is not the prefix followed by the
    identifier of the item, and one listing is lost. *)
Theorem id_without_the_listing_number :
  let d := mapping_of (scanDuproprioListings featured_duproprio (initial ∅ false false)) in
  JsString.test_listing "featured-listing-812345" = true ∧
  dom d = {[ "duproprio-listing" ]} ∧
  id <$> d !! "duproprio-listing" = Some "duproprio-listing" ∧
  url <$> d !! "duproprio-listing" = Some "https://duproprio.com/700002".
Proof. vm_compute. by repeat split. Qed.

(** * Failures stay inside the scan that met them *)

(** C7: whatever a site does (no answer, a navigation that times out, an
    item whose elements are missing), each scan returns a mapping and never
    throws, so [scanAll] runs the three of them and merges what each one
    returned, and the [try] block of the run ends without an exception. *)
Theorem scans_contain_their_failures (env : Env) (st : St) :
  returns (scanDuproprioListings env) ∧
  returns (scanCentrisListings env) ∧
  returns (scanSuttonListings env) ∧
  (∃ d st1 c st2 s st3,
     scanDuproprioListings env st = (inr d, st1) ∧
     scanCentrisListings env st1 = (inr c, st2) ∧
     scanSuttonListings env st2 = (inr s, st3) ∧
     scanAll env st = (inr (Object_assign (Object_assign d c) s), st3)) ∧
  (main_try env st).1 = inr tt.
Proof.
  split; [apply returns_scanDuproprioListings|].
  split; [apply returns_scanCentrisListings|].
  split; [apply returns_scanSuttonListings|].
  destruct (scanAll_run env st) as (d&st1&c&st2&s&st3&Hd&Hc&Hs&Hall&_).
  split; [by exists d, st1, c, st2, s, st3|].
  unfold main_try, mbind, Js_bind. rewrite Hall, reconcile_run. simpl.
  match goal with
  | |- context [verbose ?m false ?st4] =>
      destruct (returns_verbose m false st4) as [[] Hv];
      destruct (verbose m false st4) as [r st5]; simpl in Hv; subst r
  end.
  unfold publish. by destruct (_ =? _)%nat.
Qed.

(** * Records and their mandatory fields *)



(** * Sold items *)

Lemma bind_ext2 {S A B} (m m' : Js S A) (f g : A -> Js S B) s :
  m s = m' s → (∀ a s', f a s' = g a s') → (m ≫= f) s = (m' ≫= g) s.
Proof.
  intros Hm H. unfold mbind, Js_bind. rewrite Hm.
  destruct (m' s) as [[e|a] s']; [done | apply H].
Qed.

Lemma bind_ext {S A B} (m : Js S A) (f g : A -> Js S B) s :
  (∀ a s', f a s' = g a s') → (m ≫= f) s = (m ≫= g) s.
Proof. by apply bind_ext2. Qed.

Lemma filter_twice {A} (f : A -> bool) l :
  List.filter f (List.filter f l) = List.filter f l.
Proof.
  induction l as [|x l IH]; [done|]. simpl.
  destruct (f x) eqn:E; simpl; [by rewrite E, IH | exact IH].
Qed.

Lemma dup_do_while_without_sold todaysDate upcoming : ∀ pageNumber document s,
  dup_do_while todaysDate pageNumber (dup_without_sold document)
    (dup_without_sold <$> upcoming) s
  = dup_do_while todaysDate pageNumber document upcoming s.
Proof.
  induction upcoming as [|next later IH]; intros pageNumber document s;
    rewrite (dup_do_while_unfold _ _ document),
      (dup_do_while_unfold _ _ (dup_without_sold document));
    cbn [dup_without_sold dup_items dup_active_is_last dup_has_next];
    rewrite filter_twice.
  - done.
  - rewrite fmap_cons. do 3 (apply bind_ext; intros ? ?).
    destruct (negb _); [| done]. apply bind_ext; intros ? ?.
    destruct (dup_has_next _); [| done]. apply bind_ext; intros ? ?. apply IH.
Qed.

Lemma sut_for_of_without_sold todaysDate items : ∀ s,
  for_of (List.filter (λ n, negb (sut_vendu n)) items) (sut_item todaysDate) s
  = for_of items (sut_item todaysDate) s.
Proof.
  induction items as [|node items IH]; intros s; [done|].
  cbn [List.filter]. destruct (sut_vendu node) eqn:Hsold; cbn [negb].
  - rewrite (for_of_cons node items).
    assert (Hskip : sut_item todaysDate node s = (inr tt, s))
      by (unfold sut_item; by rewrite Hsold).
    rewrite Hskip. apply IH.
  - rewrite !for_of_cons.
    destruct (sut_item todaysDate node s) as [[e|a] s']; [done | apply IH].
Qed.

Lemma sut_evaluate_without_sold document todaysDate st :
  sut_evaluate (sut_without_sold document) todaysDate st
  = sut_evaluate document todaysDate st.
Proof.
  unfold sut_evaluate, call. simpl.
  unfold mbind, Js_bind. by rewrite sut_for_of_without_sold.
Qed.

Lemma sut_do_while_without_sold todaysDate upcoming : ∀ pageNumber document s,
  sut_do_while todaysDate pageNumber (sut_without_sold document)
    (sut_without_sold <$> upcoming) s
  = sut_do_while todaysDate pageNumber document upcoming s.
Proof.
  induction upcoming as [|next later IH]; intros pageNumber document s;
    rewrite (sut_do_while_unfold _ _ document),
      (sut_do_while_unfold _ _ (sut_without_sold document));
    cbn [sut_without_sold sut_next_hidden sut_has_next]; try rewrite fmap_cons.
  all: do 2 (apply bind_ext; intros ? ?).
  all: apply bind_ext2;
       [ unfold glob; by rewrite sut_evaluate_without_sold | intros ? ? ].
  all: apply bind_ext; intros ? ?.
  all: destruct (negb _); [| done]; apply bind_ext; intros ? ?.
  all: destruct (sut_has_next _); [| done].
  - done.
  - apply bind_ext; intros ? ?. apply IH.
Qed.

(** C4, as the scans do it: DuProprio and Sutton leave the items they mark
    as sold out altogether: each of the two scans returns the same mapping,
    in the same state, as on the site with those items taken off its
    pages.  (Centris has no such check.) *)
Theorem sold_items_leave_no_trace (env : Env) (st : St) :
  scanDuproprioListings (without_sold env) st = scanDuproprioListings env st ∧
  scanSuttonListings (without_sold env) st = scanSuttonListings env st.
Proof.
  split.
  - unfold scanDuproprioListings, call. cbn [without_sold web config now web_duproprio].
    match goal with
    | |- (let '(_, _) := ?m ?s in _) = (let '(_, _) := ?m' ?s in _) =>
        assert (H : m s = m' s); [| by rewrite H]
    end.
    do 2 (apply bind_ext; intros ? ?). apply bind_ext2; [| done].
    unfold try_catch.
    destruct (web_duproprio (web env) _) as [|document upcoming]; [done|].
    rewrite fmap_cons.
    match goal with
    | |- match ?m ?s with _ => _ end = match ?m' ?s with _ => _ end =>
        assert (H : m s = m' s); [| by rewrite H]
    end.
    do 2 (apply bind_ext; intros ? ?). apply bind_ext2; [| done].
    apply dup_do_while_without_sold.
  - unfold scanSuttonListings, call. cbn [without_sold web config now web_sutton].
    match goal with
    | |- (let '(_, _) := ?m ?s in _) = (let '(_, _) := ?m' ?s in _) =>
        assert (H : m s = m' s); [| by rewrite H]
    end.
    do 2 (apply bind_ext; intros ? ?). apply bind_ext2; [| done].
    unfold try_catch.
    destruct (web_sutton (web env) _) as [|document upcoming]; [done|].
    rewrite fmap_cons.
    match goal with
    | |- match ?m ?s with _ => _ end = match ?m' ?s with _ => _ end =>
        assert (H : m s = m' s); [| by rewrite H]
    end.
    do 2 (apply bind_ext; intros ? ?). apply bind_ext2; [| done].
    apply sut_do_while_without_sold.
Qed.

(** C4 as the specification words it ("for every source") fails on
    Centris: the item the page marks as sold is in the mapping. *)
Lemma centris_records_sold_item :
  cen_marked_sold cen_sold_condo = true ∧
  id <$> mapping_of (scanCentrisListings sample_env (initial ∅ false false))
           !! "centris-22222"
  = Some "centris-22222".
Proof. split; [reflexivity | vm_compute; reflexivity]. Qed.

(** * The run as a whole *)

(** What a run does, in terms of the merged mapping [M] its scans returned
    and of the new listings the reconciliation found. *)
Lemma run_effects env st :
  ∃ M st1 newListings st2 lines,
    scanAll env st = (inr M, st1) ∧
    reconcile M st1 = (inr newListings, st2) ∧
    console (run env st) = (console st ++ (Text <$> lines))%list ∧
    mails (run env st)
      = (mails st ++ if decide (newListings = ∅) then [] else [newListings])%list ∧
    written (run env st)
      = (written st ++ if decide (newListings = ∅) then [] else [savedListings st2])%list ∧
    savedListings (run env st) = savedListings st2 ∧
    exited (run env st) = exited st ∧
    exitCode (run env st) = exitCode st ∧
    browser_closed (run env st) = true ∧
    orphaned (run env st) = orphaned st1.
Proof.
  destruct (scanAll_run env st) as (d&sd&c&sc&s&st1&_&_&_&Hall&_).
  pose proof (scan_frame_scanAll st env st (scan_frame_refl st)) as Hframe.
  rewrite Hall in Hframe. simpl in Hframe.
  set (M := Object_assign (Object_assign d c) s) in *.
  destruct (for_of_keep_if_new (Object_values M) st1 ∅)
    as (st2 & new & Hloop & Hsame & _).
  assert (Hrec : reconcile M st1 = (inr new, st2))
    by (rewrite reconcile_run, Hloop; done).
  destruct Hframe as (F1&F2&F3&F4&F5&F6&F7&F8&lines&F9).
  destruct Hsame as (S1&S2&S3&S4&S5&S6&S7&S8&S9&S10&S11).
  set (line := "Finished scanning all websites: "
               +:+ pretty (Object_keys_length M) +:+ " listings found, "
               +:+ pretty (Object_keys_length new) +:+ " are new.").
  assert (Hrun : main_try env st = publish new (verbose line false st2).2).
  { unfold main_try, mbind, Js_bind. rewrite Hall, Hrec. fold line.
    destruct (returns_verbose line false st2) as [[] Hv].
    destruct (verbose line false st2) as [r st3]. simpl in Hv. by subst r. }
  exists M, st1, new, st2.
  exists (if verboseMode st2 || extraVerboseMode st2 then lines ++ [line] else lines)%list.
  split; [done|]. split; [done|].
  unfold run, main. rewrite Hrun. unfold publish, Object_keys_length.
  assert (Hsize : (size new =? 0)%nat = bool_decide (new = ∅)).
  { destruct (decide (new = ∅)) as [->|Hne].
    - by rewrite map_size_empty, bool_decide_eq_true_2.
    - rewrite bool_decide_eq_false_2 by done. apply Nat.eqb_neq.
      by rewrite map_size_empty_iff. }
  rewrite Hsize. unfold verbose. simpl.
  destruct (verboseMode st2 || extraVerboseMode st2) eqn:Hv;
    destruct (decide (new = ∅)) as [Hnew|Hnew];
    [ rewrite bool_decide_eq_true_2 by done
    | rewrite bool_decide_eq_false_2 by done
    | rewrite bool_decide_eq_true_2 by done
    | rewrite bool_decide_eq_false_2 by done ];
    simpl; rewrite ?app_nil_r;
    repeat split; try congruence;
    rewrite ?fmap_app, ?app_assoc; simpl; congruence.
Qed.

(** C6: the notification and the write of listings.json both happen when
    the reconciliation found a new listing, and neither happens when it
    found none: the run adds to the calls of [sendEmailNotification] and to
    the writes of the file exactly one element in the first case, nothing
    in the second. *)
Theorem notify_and_write_only_when_new (env : Env) (st : St) :
  ∃ M st1 newListings st2,
    scanAll env st = (inr M, st1) ∧
    reconcile M st1 = (inr newListings, st2) ∧
    mails (run env st)
      = (mails st ++ if decide (newListings = ∅) then [] else [newListings])%list ∧
    written (run env st)
      = (written st ++ if decide (newListings = ∅) then [] else [savedListings st2])%list.
Proof.
  destruct (run_effects env st) as (M&st1&new&st2&lines&H1&H2&_&H3&H4&_).
  by exists M, st1, new, st2.
Qed.

(** A run prints verbose lines and nothing else, does not call
    [process.exit] and does not set [process.exitCode]: the object that
    [endWithSuccess] would print is never printed. *)
Lemma run_prints_text_only env st :
  ∃ lines, console (run env st) = (console st ++ (Text <$> lines))%list ∧
           exited (run env st) = exited st ∧
           exitCode (run env st) = exitCode st.
Proof.
  destruct (run_effects env st) as (M&st1&new&st2&lines&_&_&H&_&_&_&He&Hc&_).
  by exists lines.
Qed.

(** C2, at a run that succeeds (three sites that answer, one listing
    already saved, three new ones): the process ends with code 0 and the
    browser closed, after notifying and writing listings.json, but standard
    output is empty: no object with [success: true] was printed. *)
Theorem successful_run_prints_no_result :
  let st := run sample_env (initial sample_saved false false) in
  console st = [] ∧ exit_code st = 0 ∧ browser_closed st = true ∧
  length (mails st) = 1%nat ∧ length (written st) = 1%nat.
Proof. vm_compute. by repeat split. Qed.

(** * Pagination *)

(** The [while] of Centris does nothing on a document without an active
    "next" control, whatever the iteration. *)
Lemma cen_while_no_next minPrice maxPrice todaysDate pageNumber document upcoming s :
  cen_has_next document = false →
  cen_while minPrice maxPrice todaysDate pageNumber document upcoming s = (inr tt, s).
Proof. intros H. simp cen_while. by rewrite H. Qed.

Lemma cen_evaluate_no_next minPrice maxPrice todaysDate document upcoming st :
  cen_has_next document = false →
  cen_evaluate minPrice maxPrice todaysDate document upcoming st = (inr ∅, st).
Proof.
  intros H. unfold cen_evaluate, call, mbind, Js_bind.
  by rewrite cen_while_no_next.
Qed.

(** So a site of one page yields nothing, whatever the page lists. *)
Lemma scanCentrisListings_single_page env document st :
  web_centris (web env) (centris_url (config env)) = [document] →
  cen_has_next document = false →
  (scanCentrisListings env st).1 = inr ∅.
Proof.
  intros Hsite Hlast.
  destruct (returns_scanCentrisListings env st) as [m Hm]. rewrite Hm. f_equal.
  revert st m Hm. change (yields (scanCentrisListings env) (λ m, m = ∅)).
  unfold scanCentrisListings. rewrite Hsite. apply yields_call; [done | |].
  - apply keeps_bind; [apply keeps_glob_on_local | intros _].
    apply keeps_bind; [apply keeps_glob_on_local | intros _].
    apply keeps_bind; [| intros _; apply keeps_get_local].
    apply keeps_try_catch; [| intros e; apply keeps_glob_on_local].
    apply keeps_bind; [apply keeps_glob_on_local | intros _].
    apply (keeps_bind_yields _ (λ m, m = ∅)); [apply keeps_glob_on_local | |].
    + apply yields_glob. intros st' a. rewrite cen_evaluate_no_next by done.
      simpl. congruence.
    + intros a ->.
      apply keeps_bind; [by apply keeps_set_local_on_local | intros _].
      repeat first [ apply keeps_glob_on_local | keeps_step ].
  - returns_local_step.
Qed.

(** C9, at a sequence of one page (N = 1) on Centris: the page is
    displayed, its item is within the price bounds and the items' loop
    would record it, but the [while] tests the "next" control before it
    reads anything: the scan returns an empty mapping instead of the
    listings of its only page. *)
Theorem centris_single_page_is_not_read :
  let st := initial ∅ false false in
  (scanCentrisListings single_page_centris st).1 = inr ∅ ∧
  loaded (scanCentrisListings single_page_centris st).2 = 1%nat ∧
  id <$> (for_of [cen_house]
            (cen_item (centris_minPrice sample_config) (centris_maxPrice sample_config)
               (formatDate sample_date)) (st, ∅)).2.2 !! "centris-11111"
  = Some "centris-11111".
Proof. vm_compute. by repeat split. Qed.

(** With a second page the same item is read: both pages of the sample
    site are in the mapping. *)
Example centris_two_pages_are_read :
  dom (mapping_of (scanCentrisListings sample_env (initial ∅ false false)))
  = {[ "centris-11111"; "centris-22222" ]}.
Proof. vm_compute. reflexivity. Qed.

(** ** The two [do ... while] loops read every page

    On a sequence of pages where the terminal signal shows on the last page
    only, where a "next" control is there on the others, and where no item
    makes the extraction throw, DuProprio's and Sutton's loops display each
    page once and return what the pages' items add up to. *)

Section Triples.
Context {S : Type}.

Lemma hoare_ret {A} (P : S -> Prop) (a : A) (Q : A -> S -> Prop) :
  (∀ s, P s → Q a s) → hoare P (mret a) Q.
Proof. intros H s Hs. exists a. split; [done | by apply H]. Qed.

Lemma hoare_bind {A B} (P : S -> Prop) (R : A -> S -> Prop) (Q : B -> S -> Prop)
    (m : Js S A) (f : A -> Js S B) :
  hoare P m R → (∀ a, hoare (R a) (f a) Q) → hoare P (m ≫= f) Q.
Proof.
  intros Hm Hf s Hs. unfold mbind, Js_bind.
  destruct (Hm s Hs) as (a & Ha & HR).
  destruct (m s) as [r s']. simpl in *. subst r. by apply Hf.
Qed.

End Triples.

Lemma hoare_glob_verbose n acc message :
  hoare (at_page n acc) (glob (verbose message false)) (λ _, at_page n acc).
Proof.
  intros [st l] [Hn Hl]. simpl in *. unfold glob, verbose. simpl.
  destruct (verboseMode st || extraVerboseMode st); by exists tt.
Qed.

Lemma hoare_glob_set_status n acc s :
  hoare (at_page n acc) (glob (set_status s)) (λ _, at_page n acc).
Proof. intros [st l] [Hn Hl]. by exists tt. Qed.

Lemma hoare_glob_display n acc :
  hoare (at_page n acc) (glob display) (λ _, at_page (S n) acc).
Proof.
  intros [st l] [Hn Hl]. exists tt. split; [done|]. split; [| done].
  simpl in *. by rewrite Hn.
Qed.

(** The globals have no say in what an item does to the mapping. *)
Lemma dup_item_locals todaysDate node st st' (acc : obj) :
  (dup_item todaysDate node (st, acc)).1 = (dup_item todaysDate node (st', acc)).1 ∧
  (dup_item todaysDate node (st, acc)).2.2 = (dup_item todaysDate node (st', acc)).2.2.
Proof.
  unfold dup_item.
  destruct (dup_attr_id node) as [s|]; simpl; [| done].
  destruct (JsString.test_listing s); simpl; [| done].
  unfold mbind, Js_bind, glob, settle, set_local. simpl.
  by destruct (dup_evaluate node todaysDate).
Qed.

Lemma dup_for_of_locals todaysDate nodes : ∀ st st' (acc : obj),
  (for_of nodes (dup_item todaysDate) (st, acc)).1
  = (for_of nodes (dup_item todaysDate) (st', acc)).1 ∧
  (for_of nodes (dup_item todaysDate) (st, acc)).2.2
  = (for_of nodes (dup_item todaysDate) (st', acc)).2.2.
Proof.
  induction nodes as [|node nodes IH]; intros st st' acc; [done|].
  rewrite !for_of_cons.
  destruct (dup_item_locals todaysDate node st st' acc) as [H1 H2].
  destruct (dup_item todaysDate node (st, acc)) as [r [st1 acc1]].
  destruct (dup_item todaysDate node (st', acc)) as [r' [st1' acc1']].
  simpl in *. subst r' acc1'. destruct r as [e|[]]; [done | apply IH].
Qed.

Lemma keeps_loaded_dup_item n todaysDate node :
  keeps (on_global (L := obj) (λ st, loaded st = n)) (dup_item todaysDate node).
Proof.
  unfold dup_item.
  repeat first
    [ apply keeps_glob_on_global, keeps_modify; by intros ? ?
    | apply keeps_set_local_on_global | keeps_step ].
Qed.

Lemma hoare_dup_items_loop n acc todaysDate document :
  (∀ s, (dup_items_loop todaysDate document s).1 = inr tt) →
  hoare (at_page n acc) (dup_items_loop todaysDate document)
    (λ _, at_page n (dup_page todaysDate acc document)).
Proof.
  intros Hreturns [st l] [Hn Hl]. simpl in Hn, Hl. rewrite Hl. clear Hl l.
  exists tt. split; [apply Hreturns|]. split.
  - apply (keeps_for_of (on_global (λ st, loaded st = n))); [| done].
    intros node _. apply keeps_loaded_dup_item.
  - unfold dup_page, dup_items_loop. apply dup_for_of_locals.
Qed.

Theorem dup_do_while_reads_every_page todaysDate upcoming :
  ∀ pageNumber document n acc,
    dup_paginated document upcoming →
    (∀ d, d ∈ document :: upcoming → ∀ s, (dup_items_loop todaysDate d s).1 = inr tt) →
    hoare (at_page n acc)
      (dup_do_while todaysDate pageNumber document upcoming)
      (λ _, at_page (n + List.length upcoming)
              (foldl (dup_page todaysDate) acc (document :: upcoming))).
Proof.
  induction upcoming as [|next later IH];
    intros pageNumber document n acc Hpages Hitems; rewrite dup_do_while_unfold.
  all: eapply hoare_bind; [apply hoare_glob_verbose | intros ?; cbv beta].
  all: eapply hoare_bind; [apply hoare_glob_set_status | intros ?; cbv beta].
  all: eapply hoare_bind;
       [ apply hoare_dup_items_loop, Hitems; left | intros ?; cbv beta ].
  - simpl in Hpages. rewrite Hpages. simpl.
    apply hoare_ret. intros s. by rewrite Nat.add_0_r.
  - destruct Hpages as (Hlast & Hnext & Hrest). rewrite Hlast, Hnext. simpl negb.
    cbv iota.
    eapply hoare_bind; [apply hoare_glob_set_status | intros ?; cbv beta].
    eapply hoare_bind; [apply hoare_glob_display | intros ?; cbv beta].
    simpl List.length. rewrite <- Nat.add_succ_comm. simpl foldl.
    apply IH; [done|]. intros d Hd. apply Hitems. by right.
Qed.

Lemma hoare_try_catch {S A} (P : S -> Prop) (m : Js S A) h (Q : A -> S -> Prop) :
  hoare P m Q → hoare P (try_catch m h) Q.
Proof.
  intros Hm s Hs. unfold try_catch. destruct (Hm s Hs) as (a & Ha & HQ).
  destruct (m s) as [r s']. simpl in *. subst r. by exists a.
Qed.

Lemma hoare_get_local {L} (P : St * L -> Prop) :
  hoare P get_local (λ a s, P s ∧ a = s.2).
Proof. intros s Hs. by exists s.2. Qed.

Lemma hoare_call {L A} (P : St -> Prop) (locals : L) (m : Js (St * L) A)
    (Q : A -> St -> Prop) :
  hoare (λ s, P s.1 ∧ s.2 = locals) m (λ a s, Q a s.1) → hoare P (call locals m) Q.
Proof.
  intros Hm st Hst. unfold call.
  destruct (Hm (st, locals)) as (a & Ha & HQ); [done|].
  destruct (m (st, locals)) as [r s']. simpl in *. by exists a.
Qed.

(** The scan of DuProprio on a well-formed sequence of pages, as a triple. *)
Lemma hoare_scanDuproprioListings env document upcoming st :
  web_duproprio (web env) (duproprio_url (config env)) = document :: upcoming →
  dup_paginated document upcoming →
  (∀ d, d ∈ document :: upcoming →
     ∀ s, (dup_items_loop (formatDate (now env)) d s).1 = inr tt) →
  hoare (λ st', st' = st) (scanDuproprioListings env)
    (λ a st', a = foldl (dup_page (formatDate (now env))) ∅ (document :: upcoming)
              ∧ loaded st' = (loaded st + S (List.length upcoming))%nat).
Proof.
  intros Hsite Hpages Hitems.
  unfold scanDuproprioListings. rewrite Hsite. apply hoare_call.
  intros [st0 l0] [H1 H2]. simpl in H1, H2. subst st0 l0.
  cut (hoare (at_page (loaded st) ∅)
         (glob (set_status "Opening DuProprio's website");;
          glob (verbose "Opening DuProprio's website..." false);;
          try_catch
            (glob display;;
             glob (verbose "Starting to scan for listings..." false);;
             dup_do_while (formatDate (now env)) 1 document upcoming;;
             glob (set_status "Finished scanning DuProprio");;
             listings ← get_local;
             glob (verbose ("Finished scanning DuProprio: total of "
                            +:+ pretty (Object_keys_length listings)
                            +:+ " listings found.") false))
            (λ e, glob (verbose ("An error occured while scanning DuProprio: "
                                 +:+ message e) false));;
          get_local)
         (λ a s', a = foldl (dup_page (formatDate (now env))) ∅ (document :: upcoming)
                  ∧ loaded s'.1 = (loaded st + S (List.length upcoming))%nat)).
  { intros H. apply H. by split. }
  eapply hoare_bind; [apply hoare_glob_set_status | intros ?; cbv beta].
  eapply hoare_bind; [apply hoare_glob_verbose | intros ?; cbv beta].
  apply (hoare_bind _
           (λ _ : (), at_page (S (loaded st) + List.length upcoming)
                        (foldl (dup_page (formatDate (now env))) ∅
                           (document :: upcoming)))).
  - apply hoare_try_catch.
    eapply hoare_bind; [apply hoare_glob_display | intros ?; cbv beta].
    eapply hoare_bind; [apply hoare_glob_verbose | intros ?; cbv beta].
    eapply hoare_bind;
      [ by apply dup_do_while_reads_every_page | intros ?; cbv beta ].
    eapply hoare_bind; [apply hoare_glob_set_status | intros ?; cbv beta].
    eapply hoare_bind; [apply hoare_get_local | intros listings; cbv beta].
    intros s' [Hs' _]. destruct (hoare_glob_verbose _ _
      ("Finished scanning DuProprio: total of "
       +:+ pretty (Object_keys_length listings) +:+ " listings found.") s' Hs')
      as (u & Hu & HQ).
    exists u. split; [exact Hu | exact HQ].
  - intros ?; cbv beta.
    intros s' [Hn Hacc]. exists s'.2. split; [done|]. split; [done|].
    simpl. rewrite Hn. lia.
Qed.

(** X7: the DuProprio scan of a well-formed sequence of N pages, the last
    of which alone carries the terminal signal, displays N documents and
    returns what the items of the N pages add up to, page after page. *)
Theorem scanDuproprioListings_reads_every_page env document upcoming st :
  web_duproprio (web env) (duproprio_url (config env)) = document :: upcoming →
  dup_paginated document upcoming →
  (∀ d, d ∈ document :: upcoming →
     ∀ s, (dup_items_loop (formatDate (now env)) d s).1 = inr tt) →
  (scanDuproprioListings env st).1
    = inr (foldl (dup_page (formatDate (now env))) ∅ (document :: upcoming)) ∧
  loaded (scanDuproprioListings env st).2 = (loaded st + S (List.length upcoming))%nat.
Proof.
  intros Hsite Hpages Hitems.
  destruct (hoare_scanDuproprioListings env document upcoming st Hsite Hpages Hitems
              st eq_refl) as (a & -> & -> & Hl).
  done.
Qed.

(** The function evaluated in Sutton's page reads and writes no global. *)
Lemma sut_item_pure todaysDate node (l : obj) :
  ∃ r l', ∀ st, sut_item todaysDate node (st, l) = (r, (st, l')).
Proof.
  unfold sut_item.
  destruct (sut_vendu node); [eexists _, _; intros st; reflexivity|].
  destruct (sut_img node); [| eexists _, _; intros st; reflexivity].
  destruct (sut_details node) as [[text href]|];
    eexists _, _; intros st; unfold set_local; cbn [fst snd]; reflexivity.
Qed.

Lemma sut_for_of_pure todaysDate nodes : ∀ l : obj,
  ∃ r l', ∀ st, for_of nodes (sut_item todaysDate) (st, l) = (r, (st, l')).
Proof.
  induction nodes as [|node nodes IH]; intros l;
    [eexists _, _; intros st; reflexivity|].
  destruct (sut_item_pure todaysDate node l) as (r & l1 & Hnode).
  destruct r as [e|[]].
  - exists (inl e), l1. intros st. by rewrite for_of_cons, Hnode.
  - destruct (IH l1) as (r & l2 & Hrest). exists r, l2. intros st.
    by rewrite for_of_cons, Hnode, Hrest.
Qed.

Lemma sut_evaluate_pure document todaysDate :
  ∃ r, ∀ st, sut_evaluate document todaysDate st = (r, st).
Proof.
  destruct (sut_for_of_pure todaysDate (sut_items document) ∅) as (r & l' & H).
  unfold sut_evaluate, call, mbind, Js_bind.
  destruct r as [e|[]]; [exists (inl e) | exists (inr l')];
    intros st; by rewrite H.
Qed.

Lemma hoare_glob_sut_evaluate n acc document todaysDate :
  (∀ st, ∃ m, (sut_evaluate document todaysDate st).1 = inr m) →
  hoare (at_page n acc) (glob (sut_evaluate document todaysDate))
    (λ pageListings s,
       at_page n acc s ∧
       pageListings = mapping_of (sut_evaluate document todaysDate (initial ∅ false false))).
Proof.
  intros Hreturns [st l] [Hn Hl]. simpl in Hn, Hl.
  destruct (sut_evaluate_pure document todaysDate) as (r & Hpure).
  destruct (Hreturns st) as (m & Hm). rewrite Hpure in Hm. simpl in Hm. subst r.
  exists m. unfold glob, mapping_of. rewrite !Hpure. by simpl.
Qed.

Lemma hoare_set_local n acc (P : St * obj -> Prop) (f : obj -> obj) acc' :
  (∀ s, P s → at_page n acc s ∧ f acc = acc') →
  hoare P (set_local f) (λ _, at_page n acc').
Proof.
  intros H [st l] Hs. destruct (H _ Hs) as [[Hn Hl] Hf]. simpl in Hn, Hl.
  exists tt. split; [done|]. split; [done|]. simpl. by rewrite Hl.
Qed.

Theorem sut_do_while_reads_every_page todaysDate upcoming :
  ∀ pageNumber document n acc,
    sut_paginated document upcoming →
    (∀ d, d ∈ document :: upcoming →
       ∀ st, ∃ m, (sut_evaluate d todaysDate st).1 = inr m) →
    hoare (at_page n acc)
      (sut_do_while todaysDate pageNumber document upcoming)
      (λ _, at_page (n + List.length upcoming)
              (foldl (sut_page todaysDate) acc (document :: upcoming))).
Proof.
  induction upcoming as [|next later IH];
    intros pageNumber document n acc Hpages Hitems; rewrite sut_do_while_unfold.
  all: eapply hoare_bind; [apply hoare_glob_verbose | intros ?; cbv beta].
  all: eapply hoare_bind; [apply hoare_glob_set_status | intros ?; cbv beta].
  all: eapply hoare_bind;
       [ apply hoare_glob_sut_evaluate, Hitems; left | intros pageListings; cbv beta ].
  all: apply (hoare_bind _ (λ _, at_page n (sut_page todaysDate acc document)));
       [ apply (hoare_set_local n acc); by intros s [Hs ->] | intros ?; cbv beta ].
  - simpl in Hpages. rewrite Hpages. simpl.
    apply hoare_ret. intros s. by rewrite Nat.add_0_r.
  - destruct Hpages as (Hlast & Hnext & Hrest). rewrite Hlast, Hnext. simpl negb.
    cbv iota.
    eapply hoare_bind; [apply hoare_glob_set_status | intros ?; cbv beta].
    eapply hoare_bind; [apply hoare_glob_display | intros ?; cbv beta].
    simpl List.length. rewrite <- Nat.add_succ_comm. simpl foldl.
    apply IH; [done|]. intros d Hd. apply Hitems. by right.
Qed.

(** X8: the Sutton scan of a well-formed sequence of N pages, the last of
    which alone has no following page to go to, displays N documents and
    returns what the N pages add up to, page after page. *)
Theorem scanSuttonListings_reads_every_page env document upcoming st :
  web_sutton (web env) (sutton_url (config env)) = document :: upcoming →
  sut_paginated document upcoming →
  (∀ d, d ∈ document :: upcoming →
     ∀ st', ∃ m, (sut_evaluate d (formatDate (now env)) st').1 = inr m) →
  (scanSuttonListings env st).1
    = inr (foldl (sut_page (formatDate (now env))) ∅ (document :: upcoming)) ∧
  loaded (scanSuttonListings env st).2 = (loaded st + S (List.length upcoming))%nat.
Proof.
  intros Hsite Hpages Hitems.
  cut (hoare (λ st', st' = st) (scanSuttonListings env)
         (λ a st', a = foldl (sut_page (formatDate (now env))) ∅ (document :: upcoming)
                   ∧ loaded st' = (loaded st + S (List.length upcoming))%nat)).
  { intros H. destruct (H st eq_refl) as (a & -> & -> & Hl). done. }
  unfold scanSuttonListings. rewrite Hsite. apply hoare_call.
  intros [st0 l0] [H1 H2]. simpl in H1, H2. subst st0 l0.
  cut (hoare (at_page (loaded st) ∅)
         (glob (set_status "Opening Sutton's website");;
          glob (verbose "Opening Sutton's website..." false);;
          try_catch
            (glob display;;
             glob (verbose "Starting to scan for listings..." false);;
             sut_do_while (formatDate (now env)) 1 document upcoming;;
             glob (set_status "Finished scanning Sutton");;
             listings ← get_local;
             glob (verbose ("Finished scanning Sutton: total of "
                            +:+ pretty (Object_keys_length listings)
                            +:+ " listings found.") false))
            (λ e, glob (verbose ("An error occured while scanning Sutton: "
                                 +:+ message e) false));;
          get_local)
         (λ a s', a = foldl (sut_page (formatDate (now env))) ∅ (document :: upcoming)
                  ∧ loaded s'.1 = (loaded st + S (List.length upcoming))%nat)).
  { intros H. apply H. by split. }
  eapply hoare_bind; [apply hoare_glob_set_status | intros ?; cbv beta].
  eapply hoare_bind; [apply hoare_glob_verbose | intros ?; cbv beta].
  apply (hoare_bind _
           (λ _ : (), at_page (S (loaded st) + List.length upcoming)
                        (foldl (sut_page (formatDate (now env))) ∅
                           (document :: upcoming)))).
  - apply hoare_try_catch.
    eapply hoare_bind; [apply hoare_glob_display | intros ?; cbv beta].
    eapply hoare_bind; [apply hoare_glob_verbose | intros ?; cbv beta].
    eapply hoare_bind;
      [ by apply sut_do_while_reads_every_page | intros ?; cbv beta ].
    eapply hoare_bind; [apply hoare_glob_set_status | intros ?; cbv beta].
    eapply hoare_bind; [apply hoare_get_local | intros listings; cbv beta].
    intros s' [Hs' _]. destruct (hoare_glob_verbose _ _
      ("Finished scanning Sutton: total of "
       +:+ pretty (Object_keys_length listings) +:+ " listings found.") s' Hs')
      as (u & Hu & HQ).
    exists u. split; [exact Hu | exact HQ].
  - intros ?; cbv beta.
    intros s' [Hn Hacc]. exists s'.2. split; [done|]. split; [done|].
    simpl. rewrite Hn. lia.
Qed.

(** ** Centris reads every page when there are at least two *)

(** The first iteration clicks nothing and reads the document on display. *)
Lemma cen_while_first minPrice maxPrice todaysDate document upcoming :
  cen_has_next document = true →
  cen_while minPrice maxPrice todaysDate 1 document upcoming
  = (cen_items_loop minPrice maxPrice todaysDate document;;
     cen_while minPrice maxPrice todaysDate 2 document upcoming).
Proof. intros H. rewrite (cen_while_equation_1 _ _ _ 1). by rewrite H. Qed.

(** The iterations that follow click, then read the document that comes. *)
Lemma cen_while_click minPrice maxPrice todaysDate p document next later :
  cen_has_next document = true →
  cen_while minPrice maxPrice todaysDate (S (S p)) document (next :: later)
  = (glob display;;
     cen_items_loop minPrice maxPrice todaysDate next;;
     cen_while minPrice maxPrice todaysDate (S (S (S p))) next later).
Proof.
  intros H. rewrite (cen_while_equation_1 _ _ _ (S (S p)) document). by rewrite H.
Qed.

Lemma cen_item_pure minPrice maxPrice todaysDate node (l : obj) :
  ∃ r l', ∀ st, cen_item minPrice maxPrice todaysDate node (st, l) = (r, (st, l')).
Proof.
  unfold cen_item.
  destruct (cen_details node) as [[listingId href]|];
    [| eexists _, _; intros st; reflexivity].
  destruct (cen_img node); [| eexists _, _; intros st; reflexivity].
  destruct (cen_price node); [| eexists _, _; intros st; reflexivity].
  destruct (_ || _);
    eexists _, _; intros st; unfold set_local; cbn [fst snd]; reflexivity.
Qed.

Lemma cen_items_loop_pure minPrice maxPrice todaysDate document : ∀ l : obj,
  ∃ r l', ∀ st,
    cen_items_loop minPrice maxPrice todaysDate document (st, l) = (r, (st, l')).
Proof.
  unfold cen_items_loop.
  induction (cen_items document) as [|node nodes IH]; intros l;
    [eexists _, _; intros st; reflexivity|].
  destruct (cen_item_pure minPrice maxPrice todaysDate node l) as (r & l1 & Hnode).
  destruct r as [e|[]].
  - exists (inl e), l1. intros st. by rewrite for_of_cons, Hnode.
  - destruct (IH l1) as (r & l2 & Hrest). exists r, l2. intros st.
    by rewrite for_of_cons, Hnode, Hrest.
Qed.

Lemma hoare_cen_items_loop n acc minPrice maxPrice todaysDate document :
  (∀ s, (cen_items_loop minPrice maxPrice todaysDate document s).1 = inr tt) →
  hoare (at_page n acc) (cen_items_loop minPrice maxPrice todaysDate document)
    (λ _, at_page n (cen_in_page minPrice maxPrice todaysDate acc document)).
Proof.
  intros Hreturns [st l] [Hn Hl]. simpl in Hn, Hl. rewrite Hl. clear Hl l.
  destruct (cen_items_loop_pure minPrice maxPrice todaysDate document acc)
    as (r & l' & Hpure).
  exists tt. split; [apply Hreturns|]. unfold cen_in_page. rewrite !Hpure. by split.
Qed.

(** The items' loop only assigns, and what it assigns does not depend on
    the mapping it assigns to. *)
Lemma cen_item_assigns minPrice maxPrice todaysDate node :
  ∃ r adds, ∀ st (l : obj),
    cen_item minPrice maxPrice todaysDate node (st, l) = (r, (st, assign_all adds l)).
Proof.
  unfold cen_item.
  destruct (cen_details node) as [[listingId href]|];
    [| exists (inl TypeError_null), []; intros st l; reflexivity].
  destruct (cen_img node) as [src|];
    [| exists (inl TypeError_null), []; intros st l; reflexivity].
  destruct (cen_price node) as [content|];
    [| exists (inl TypeError_null), []; intros st l; reflexivity].
  destruct (_ || _); [exists (inr tt), []; intros st l; reflexivity|].
  eexists (inr tt), [(_, _)]. intros st l. reflexivity.
Qed.

Lemma assign_all_app adds adds' (l : obj) :
  assign_all (adds ++ adds') l = assign_all adds' (assign_all adds l).
Proof. unfold assign_all. by rewrite foldl_app. Qed.

Lemma cen_items_loop_assigns minPrice maxPrice todaysDate document :
  ∃ r adds, ∀ st (l : obj),
    cen_items_loop minPrice maxPrice todaysDate document (st, l)
    = (r, (st, assign_all adds l)).
Proof.
  unfold cen_items_loop.
  induction (cen_items document) as [|node nodes IH];
    [exists (inr tt), []; intros st l; reflexivity|].
  destruct (cen_item_assigns minPrice maxPrice todaysDate node) as (r & adds & Hnode).
  destruct r as [e|[]].
  - exists (inl e), adds. intros st l. by rewrite for_of_cons, Hnode.
  - destruct IH as (r & adds' & Hrest). exists r, (adds ++ adds')%list. intros st l.
    by rewrite for_of_cons, Hnode, Hrest, assign_all_app.
Qed.

Lemma by_value_twice l : by_value (by_value l) = by_value l.
Proof. destruct l as [i [| |] c a d im u ds so]; reflexivity. Qed.

Lemma fmap_assign_all (f : Listing -> Listing) adds (l : obj) :
  f <$> assign_all adds l = assign_all (prod_map Datatypes.id f <$> adds) (f <$> l).
Proof.
  revert l. induction adds as [|[k v] adds IH]; intros l; [done|].
  unfold assign_all in *. simpl. by rewrite IH, fmap_insert.
Qed.

Lemma cen_page_by_value minPrice maxPrice todaysDate (acc : obj) document :
  cen_page minPrice maxPrice todaysDate (by_value <$> acc) document
  = by_value <$> cen_in_page minPrice maxPrice todaysDate acc document.
Proof.
  unfold cen_page, cen_in_page.
  destruct (cen_items_loop_assigns minPrice maxPrice todaysDate document)
    as (r & adds & Hloop).
  rewrite !Hloop. simpl. rewrite !fmap_assign_all. f_equal.
  rewrite <- map_fmap_compose. apply map_fmap_ext. intros k l _.
  apply by_value_twice.
Qed.

Lemma foldl_cen_page_by_value minPrice maxPrice todaysDate pages : ∀ acc : obj,
  foldl (cen_page minPrice maxPrice todaysDate) (by_value <$> acc) pages
  = by_value <$> foldl (cen_in_page minPrice maxPrice todaysDate) acc pages.
Proof.
  induction pages as [|document pages IH]; intros acc; [done|].
  simpl. by rewrite cen_page_by_value, IH.
Qed.

Lemma cen_while_reads_what_comes minPrice maxPrice todaysDate upcoming :
  ∀ p document n acc,
    cen_paginated document upcoming →
    (∀ d, d ∈ upcoming →
       ∀ s, (cen_items_loop minPrice maxPrice todaysDate d s).1 = inr tt) →
    hoare (at_page n acc)
      (cen_while minPrice maxPrice todaysDate (S (S p)) document upcoming)
      (λ _, at_page (n + List.length upcoming)
              (foldl (cen_in_page minPrice maxPrice todaysDate) acc upcoming)).
Proof.
  induction upcoming as [|next later IH]; intros p document n acc Hpages Hitems.
  - simpl in Hpages. intros s Hs. rewrite cen_while_no_next by done.
    exists tt. split; [done|]. simpl. by rewrite Nat.add_0_r.
  - destruct Hpages as [Hnext Hrest]. rewrite cen_while_click by done.
    eapply hoare_bind; [apply hoare_glob_display | intros ?; cbv beta].
    eapply hoare_bind;
      [ apply hoare_cen_items_loop, Hitems; left | intros ?; cbv beta ].
    simpl List.length. rewrite <- Nat.add_succ_comm. simpl foldl.
    apply IH; [done|]. intros d Hd. apply Hitems. by right.
Qed.

Lemma hoare_glob {L A} (P : St -> Prop) (m : Js St A) (Q : A -> St -> Prop) (l : L) :
  hoare P m Q → hoare (λ s, P s.1 ∧ s.2 = l) (glob m) (λ a s, Q a s.1 ∧ s.2 = l).
Proof.
  intros Hm [st l0] [Hs Hl]. simpl in Hs, Hl. unfold glob. simpl.
  destruct (Hm st Hs) as (a & Ha & HQ). destruct (m st) as [r st'].
  simpl in *. by exists a.
Qed.

(** X9: the Centris scan of a well-formed sequence of N = 2 + [length later]
    pages displays N documents and returns what the items of the N pages add
    up to, page after page. *)
Theorem scanCentrisListings_reads_every_page env document next later st :
  web_centris (web env) (centris_url (config env)) = document :: next :: later →
  cen_paginated document (next :: later) →
  (∀ d, d ∈ document :: next :: later →
     ∀ s, (cen_items_loop (centris_minPrice (config env)) (centris_maxPrice (config env))
             (formatDate (now env)) d s).1 = inr tt) →
  (scanCentrisListings env st).1
    = inr (foldl (cen_page (centris_minPrice (config env))
                    (centris_maxPrice (config env)) (formatDate (now env)))
             ∅ (document :: next :: later)) ∧
  loaded (scanCentrisListings env st).2 = (loaded st + S (S (List.length later)))%nat.
Proof.
  intros Hsite [Hnext Hpages] Hitems.
  set (minPrice := centris_minPrice (config env)) in *.
  set (maxPrice := centris_maxPrice (config env)) in *.
  set (todaysDate := formatDate (now env)) in *.
  set (all := foldl (cen_page minPrice maxPrice todaysDate) ∅ (document :: next :: later)).
  set (built := foldl (cen_in_page minPrice maxPrice todaysDate) ∅
                  (document :: next :: later)).
  assert (Harrives : by_value <$> built = all).
  { unfold all, built. rewrite <- foldl_cen_page_by_value. by rewrite fmap_empty. }
  assert (Hevaluate : ∀ n,
    hoare (λ st', loaded st' = n)
      (cen_evaluate minPrice maxPrice todaysDate document (next :: later))
      (λ a st', a = built ∧ loaded st' = (n + S (List.length later))%nat)).
  { intros n. unfold cen_evaluate. apply hoare_call.
    apply (hoare_bind _ (λ _, at_page (n + S (List.length later)) built)).
    - intros s Hs. revert s Hs. change (hoare (at_page n ∅)
        (cen_while minPrice maxPrice todaysDate 1 document (next :: later))
        (λ _, at_page (n + S (List.length later)) built)).
      rewrite cen_while_first by done.
      eapply hoare_bind;
        [ apply hoare_cen_items_loop, Hitems; left | intros ?; cbv beta ].
      apply (cen_while_reads_what_comes minPrice maxPrice todaysDate (next :: later)
               0 document n); [by split|].
      intros d Hd. apply Hitems. by right.
    - intros _ s [Hn Hacc]. exists s.2. by repeat split. }
  cut (hoare (λ st', st' = st) (scanCentrisListings env)
         (λ a st', a = all ∧ loaded st' = (loaded st + S (S (List.length later)))%nat)).
  { intros H. destruct (H st eq_refl) as (a & -> & -> & Hl). done. }
  unfold scanCentrisListings. fold minPrice maxPrice todaysDate.
  rewrite Hsite. apply hoare_call.
  intros [st0 l0] [H1 H2]. simpl in H1, H2. subst st0 l0.
  cut (hoare (at_page (loaded st) ∅)
         (glob (set_status "Opening Centris's website");;
          glob (verbose "Opening Centris's website..." false);;
          try_catch
            (glob display;;
             scannedListings ← glob (cen_evaluate minPrice maxPrice todaysDate
                                       document (next :: later));
             set_local (λ _, by_value <$> scannedListings);;
             glob (set_status "Finished scanning Centris");;
             glob (verbose ("Finished scanning Centris: total of "
                            +:+ pretty (Object_keys_length (by_value <$> scannedListings))
                            +:+ " listings found.") false))
            (λ e, glob (verbose ("An error occured while scanning DuProprio: "
                                 +:+ message e) false));;
          get_local)
         (λ a s', a = all ∧ loaded s'.1 = (loaded st + S (S (List.length later)))%nat)).
  { intros H. apply H. by split. }
  eapply hoare_bind; [apply hoare_glob_set_status | intros ?; cbv beta].
  eapply hoare_bind; [apply hoare_glob_verbose | intros ?; cbv beta].
  apply (hoare_bind _ (λ _ : (), at_page (S (loaded st) + S (List.length later)) all)).
  - apply hoare_try_catch.
    eapply hoare_bind; [apply hoare_glob_display | intros ?; cbv beta].
    apply (hoare_bind _
             (λ a s, (a = built ∧ loaded s.1 = (S (loaded st) + S (List.length later))%nat)
                     ∧ s.2 = ∅)).
    { intros s [Hn Hl]. apply (hoare_glob _ _ _ ∅ (Hevaluate (S (loaded st)))).
      by split. }
    intros scannedListings.
    apply (hoare_bind _ (λ _ : (), at_page (S (loaded st) + S (List.length later)) all)).
    { intros [st' l'] [[-> Hn] Hl]. exists tt. split; [done|]. split; [done|].
      exact Harrives. }
    intros ?; cbv beta.
    eapply hoare_bind; [apply hoare_glob_set_status | intros ?; cbv beta].
    apply hoare_glob_verbose.
  - intros ?; cbv beta.
    intros s' [Hn Hacc]. exists s'.2. split; [done|]. split; [done|].
    simpl. rewrite Hn. lia.
Qed.

(** The scan that met the timeout returns what it had read, logs the error
    when asked to, and the two other scans run all the same. *)
Example timeout_leaves_a_partial_mapping :
  let r := scanAll second_page_times_out (initial ∅ true false) in
  dom (mapping_of r)
  = {[ "duproprio-812345"; "centris-11111"; "centris-22222"; "sutton-7" ]} ∧
  Text "An error occured while scanning DuProprio: Navigation timeout of 60000 ms exceeded"
  ∈ console r.2.
Proof. vm_compute. split; [reflexivity|]. do 3 right. left. Qed.

(** * More on the reconciliation (scan.js 31-41) *)

(** X1: whatever was scanned, the saved mapping after the reconciliation is
    the saved mapping before it with the new listings added, and the new
    listings are under ids the saved mapping did not have. *)
Theorem reconcile_adds_exactly_the_new (M : obj) (st : St) :
  ∃ newListings,
    (reconcile M st).1 = inr newListings ∧
    savedListings (reconcile M st).2 = newListings ∪ savedListings st ∧
    newListings ##ₘ savedListings st.
Proof.
  rewrite reconcile_run.
  destruct (for_of_keep_if_new (Object_values M) st ∅)
    as (st' & new' & Hrun & _ & Hsaved & Hnew).
  rewrite Hrun. simpl. exists new'. split; [done|]. split.
  - apply map_eq. intros k. rewrite lookup_union, Hsaved, Hnew.
    destruct (is_defined (savedListings st) k) eqn:Hdef.
    + rewrite lookup_empty. by destruct (savedListings st !! k).
    + apply is_defined_false in Hdef as [-> _]. rewrite lookup_empty.
      by destruct (find_id k (Object_values M)).
  - apply map_disjoint_spec. intros k x y Hx Hy.
    rewrite Hnew, (is_defined_own _ _ y Hy), lookup_empty in Hx. discriminate.
Qed.

(** X2: whatever was scanned and whatever was saved, every new listing is
    one of the scanned records and sits under its own id. *)
Theorem new_listings_are_scanned_records (M : obj) (st : St) :
  ∃ newListings,
    (reconcile M st).1 = inr newListings ∧
    map_Forall (λ k l, id l = k ∧ l ∈ Object_values M) newListings.
Proof.
  rewrite reconcile_run.
  destruct (for_of_keep_if_new (Object_values M) st ∅)
    as (st' & new' & Hrun & _ & _ & Hnew).
  rewrite Hrun. simpl. exists new'. split; [done|].
  intros k l Hl. rewrite Hnew in Hl.
  destruct (is_defined (savedListings st) k); [by rewrite lookup_empty in Hl|].
  destruct (find_id k (Object_values M)) as [l'|] eqn:Hfind;
    [| by rewrite lookup_empty in Hl].
  injection Hl as <-. apply find_some in Hfind as [Hin Hid].
  split; [by apply bool_decide_eq_true in Hid | by apply list_elem_of_In].
Qed.

(** * Invariants of the globals *)

(** The scans act on the globals through [status], [verbose], the
    documents they make the page display and, on a document that shows
    neither the terminal signal nor a control to the next one, the promise
    they leave pending: what these keep, the scans keep.  [dup_ok] and
    [sut_ok] tell on which documents the last one has to be looked at. *)
Section ScanInvariant.
Variable J : St -> Prop.
Variable dup_ok : DupDoc -> Prop.
Variable sut_ok : SutDoc -> Prop.
Hypothesis J_set_status : ∀ s, keeps J (set_status s).
Hypothesis J_display : keeps J display.
Hypothesis J_verbose : ∀ message extra, keeps J (verbose message extra).
Hypothesis J_dup_orphaned : ∀ d,
  dup_ok d → dup_active_is_last d = false → dup_has_next d = false →
  keeps J waitForNavigation_orphaned.
Hypothesis J_sut_orphaned : ∀ d,
  sut_ok d → sut_next_hidden d = false → sut_has_next d = false →
  keeps J waitForNavigation_orphaned.

Ltac invariant_step :=
  first
    [ apply keeps_glob_on_global;
      first [ apply J_set_status | apply J_display | apply J_verbose ]
    | apply keeps_set_local_on_global
    | keeps_step ].

Lemma invariant_dup_do_while todaysDate upcoming : ∀ pageNumber document,
  (∀ d, d ∈ document :: upcoming → dup_ok d) →
  keeps (on_global (L := obj) J)
    (dup_do_while todaysDate pageNumber document upcoming).
Proof.
  induction upcoming as [|next later IH]; intros pageNumber document Hok;
    rewrite dup_do_while_unfold.
  all: apply keeps_bind; [apply keeps_glob_on_global, J_verbose | intros _].
  all: apply keeps_bind; [apply keeps_glob_on_global, J_set_status | intros _].
  all: apply keeps_bind;
       [ apply keeps_for_of; intros ? _; unfold dup_item; repeat invariant_step
       | intros _ ].
  all: destruct (dup_active_is_last document) eqn:Hlast; simpl negb; cbv iota;
       [apply keeps_ret|].
  all: apply keeps_bind; [apply keeps_glob_on_global, J_set_status | intros _].
  all: destruct (dup_has_next document) eqn:Hnext.
  - apply keeps_throw.
  - apply keeps_bind; [| intros _; apply keeps_throw].
    apply keeps_glob_on_global, (J_dup_orphaned document); [apply Hok; left | done..].
  - apply keeps_bind; [apply keeps_glob_on_global, J_display | intros _].
    apply IH. intros d Hd. apply Hok. by right.
  - apply keeps_bind; [| intros _; apply keeps_throw].
    apply keeps_glob_on_global, (J_dup_orphaned document); [apply Hok; left | done..].
Qed.

Lemma invariant_sut_evaluate document todaysDate :
  keeps J (sut_evaluate document todaysDate).
Proof.
  unfold sut_evaluate. apply keeps_call.
  repeat first [ apply keeps_for_of; intros ? _; unfold sut_item
               | invariant_step ].
Qed.

Lemma invariant_sut_do_while todaysDate upcoming : ∀ pageNumber document,
  (∀ d, d ∈ document :: upcoming → sut_ok d) →
  keeps (on_global (L := obj) J)
    (sut_do_while todaysDate pageNumber document upcoming).
Proof.
  induction upcoming as [|next later IH]; intros pageNumber document Hok;
    rewrite sut_do_while_unfold.
  all: apply keeps_bind; [apply keeps_glob_on_global, J_verbose | intros _].
  all: apply keeps_bind; [apply keeps_glob_on_global, J_set_status | intros _].
  all: apply keeps_bind;
       [ apply keeps_glob_on_global, invariant_sut_evaluate | intros pageListings ].
  all: apply keeps_bind; [apply keeps_set_local_on_global | intros _].
  all: destruct (sut_next_hidden document) eqn:Hlast; simpl negb; cbv iota;
       [apply keeps_ret|].
  all: apply keeps_bind; [apply keeps_glob_on_global, J_set_status | intros _].
  all: destruct (sut_has_next document) eqn:Hnext.
  - apply keeps_throw.
  - apply keeps_bind; [| intros _; apply keeps_throw].
    apply keeps_glob_on_global, (J_sut_orphaned document); [apply Hok; left | done..].
  - apply keeps_bind; [apply keeps_glob_on_global, J_display | intros _].
    apply IH. intros d Hd. apply Hok. by right.
  - apply keeps_bind; [| intros _; apply keeps_throw].
    apply keeps_glob_on_global, (J_sut_orphaned document); [apply Hok; left | done..].
Qed.

Lemma invariant_cen_evaluate minPrice maxPrice todaysDate document upcoming :
  keeps J (cen_evaluate minPrice maxPrice todaysDate document upcoming).
Proof.
  unfold cen_evaluate. apply keeps_call.
  apply keeps_bind; [| intros _; apply keeps_get_local].
  apply keeps_cen_while; [| apply keeps_glob_on_global, J_display].
  intros doc node _ _. unfold cen_item. repeat invariant_step.
Qed.

Lemma invariant_scanAll env :
  (∀ d, d ∈ web_duproprio (web env) (duproprio_url (config env)) → dup_ok d) →
  (∀ d, d ∈ web_sutton (web env) (sutton_url (config env)) → sut_ok d) →
  keeps J (scanAll env).
Proof.
  intros Hdup Hsut.
  unfold scanAll, scanDuproprioListings, scanCentrisListings, scanSuttonListings.
  destruct (web_duproprio _ _) as [|dup_document dup_upcoming];
    destruct (web_sutton _ _) as [|sut_document sut_upcoming].
  all: repeat first [ apply keeps_call
                    | by apply invariant_dup_do_while
                    | by apply invariant_sut_do_while
                    | apply keeps_glob_on_global, invariant_cen_evaluate
                    | invariant_step ].
Qed.

End ScanInvariant.

Lemma quiet_verbose console0 message extra :
  keeps (quiet console0) (verbose message extra).
Proof.
  intros st (Hv & Hvv & Hc). unfold verbose. rewrite Hv, Hvv.
  by destruct extra.
Qed.

Lemma quiet_scanAll console0 env : keeps (quiet console0) (scanAll env).
Proof.
  apply (invariant_scanAll _ (λ _, True) (λ _, True)); try done.
  - intros s. apply keeps_modify. by intros st H.
  - apply keeps_modify. by intros st H.
  - apply quiet_verbose.
  - intros _ _ _ _. apply keeps_modify. by intros st H.
  - intros _ _ _ _. apply keeps_modify. by intros st H.
Qed.

(** X3: without [-v] and [-vv] a run prints nothing at all, whatever the
    sites hold or fail to deliver and whatever was saved. *)
Theorem run_is_silent_by_default (env : Env) (saved : obj) :
  console (run env (initial saved false false)) = [].
Proof.
  set (st := initial saved false false).
  destruct (run_effects env st) as (M&st1&new&st2&lines&Hall&Hrec&Hcon&_).
  pose proof (quiet_scanAll [] env st) as Hquiet.
  rewrite Hall in Hquiet. simpl in Hquiet.
  destruct Hquiet as (Hv & Hvv & Hc); [done|].
  pose proof (reconcile_run M st1) as Hrun. rewrite Hrec in Hrun.
  destruct (for_of_keep_if_new (Object_values M) st1 ∅)
    as (st2' & new' & Hloop & Hsame & _).
  rewrite Hloop in Hrun. simpl in Hrun. injection Hrun as -> ->.
  destruct Hsame as (S1&S2&_&S4&_).
  unfold run, main, main_try, mbind, Js_bind. rewrite Hall, Hrec.
  unfold verbose. rewrite S1, S2, Hv, Hvv. simpl.
  unfold publish. destruct (_ =? _)%nat; simpl; congruence.
Qed.





(** A run that meets a page without its control to the next one goes to
    its end, listings.json written, and the process ends with code 1. *)
Example missing_next_control_ends_with_code_1 :
  let st := run sutton_without_next (initial sample_saved false false) in
  exit_code st = 1 ∧ orphaned st = 1%nat ∧ browser_closed st = true ∧
  List.length (written st) = 1%nat.
Proof. vm_compute. by repeat split. Qed.

(** * The three scans together (scan.js 27-30) *)

Lemma scans_apart env st d st1 c st2 s st3 :
  scanDuproprioListings env st = (inr d, st1) →
  scanCentrisListings env st1 = (inr c, st2) →
  scanSuttonListings env st2 = (inr s, st3) →
  d ##ₘ c ∧ d ##ₘ s ∧ c ##ₘ s.
Proof.
  intros Hd Hc Hs.
  pose proof (scanDuproprioListings_entries env st d) as Pd.
  pose proof (scanCentrisListings_entries env st1 c) as Pc.
  pose proof (scanSuttonListings_entries env st2 s) as Ps.
  rewrite Hd in Pd. rewrite Hc in Pc. rewrite Hs in Ps.
  specialize (Pd eq_refl). specialize (Pc eq_refl). specialize (Ps eq_refl).
  repeat split; apply map_disjoint_spec; intros k x y Hx Hy.
  - exact (prefixes_apart_dc k (proj1 (dup_entry_id _ _ _ (Pd k x Hx)))
             (proj1 (cen_entry_id _ _ _ _ _ (Pc k y Hy)))).
  - exact (prefixes_apart_ds k (proj1 (dup_entry_id _ _ _ (Pd k x Hx)))
             (proj1 (sut_entry_id _ _ _ (Ps k y Hy)))).
  - exact (prefixes_apart_cs k (proj1 (cen_entry_id _ _ _ _ _ (Pc k x Hx)))
             (proj1 (sut_entry_id _ _ _ (Ps k y Hy)))).
Qed.

(** X5: the merge of line 30 loses nothing and overwrites nothing: the
    merged mapping contains the mapping of each scan, and its size, the
    count that the last verbose line reports, is the sum of the three
    sizes. *)
Theorem merge_loses_no_listing (env : Env) (st : St) :
  ∃ d st1 c st2 s st3 M,
    scanDuproprioListings env st = (inr d, st1) ∧
    scanCentrisListings env st1 = (inr c, st2) ∧
    scanSuttonListings env st2 = (inr s, st3) ∧
    scanAll env st = (inr M, st3) ∧
    d ⊆ M ∧ c ⊆ M ∧ s ⊆ M ∧
    Object_keys_length M
    = (Object_keys_length d + Object_keys_length c + Object_keys_length s)%nat.
Proof.
  destruct (scanAll_run env st) as (d&st1&c&st2&s&st3&Hd&Hc&Hs&Hall&_).
  destruct (scans_apart env st d st1 c st2 s st3 Hd Hc Hs) as (Hdc & Hds & Hcs).
  exists d, st1, c, st2, s, st3, (Object_assign (Object_assign d c) s).
  do 4 (split; [done|]). unfold Object_assign, Object_keys_length.
  assert (Hs_cd : s ##ₘ c ∪ d) by (apply map_disjoint_union_r; by split).
  split; [| split; [| split]].
  - apply map_union_subseteq_r'; [done|]. by apply map_union_subseteq_r.
  - apply map_union_subseteq_r'; [done|]. apply map_union_subseteq_l.
  - apply map_union_subseteq_l.
  - rewrite map_size_disj_union by done.
    rewrite map_size_disj_union by done. lia.
Qed.

Lemma map_Forall_nothing (P : string -> Listing -> Prop) (m : obj) :
  (∀ k l, ¬ P k l) → map_Forall P m → m = ∅.
Proof.
  intros Hnot Hall. apply map_empty. intros k.
  destruct (m !! k) as [l|] eqn:E; [| done].
  destruct (Hnot k l (Hall k l E)).
Qed.

(** X6: when none of the three sites answers, the run finds nothing new,
    notifies nobody, does not write listings.json and leaves the saved
    mapping as it was. *)
Theorem no_answer_changes_nothing (env : Env) (st : St) :
  web_duproprio (web env) (duproprio_url (config env)) = [] →
  web_centris (web env) (centris_url (config env)) = [] →
  web_sutton (web env) (sutton_url (config env)) = [] →
  (scanAll env st).1 = inr ∅ ∧
  mails (run env st) = mails st ∧
  written (run env st) = written st ∧
  savedListings (run env st) = savedListings st.
Proof.
  intros Wd Wc Ws.
  destruct (scanAll_run env st) as (d&sd&c&sc&s&ss&_&_&_&Hall&Pd&Pc&Ps).
  rewrite Wd in Pd. rewrite Wc in Pc. rewrite Ws in Ps.
  assert (d = ∅) as ->.
  { eapply map_Forall_nothing; [| exact Pd].
    intros k l (doc & ? & ? & ? & ? & ? & Hdoc & _). by apply elem_of_nil in Hdoc. }
  assert (c = ∅) as ->.
  { eapply map_Forall_nothing; [| exact Pc].
    intros k l (doc & ? & ? & ? & ? & ? & Hdoc & _). by apply elem_of_nil in Hdoc. }
  assert (s = ∅) as ->.
  { eapply map_Forall_nothing; [| exact Ps].
    intros k l (doc & ? & ? & ? & ? & Hdoc & _). by apply elem_of_nil in Hdoc. }
  assert (HM : Object_assign (Object_assign ∅ ∅) ∅ = (∅ : obj)).
  { unfold Object_assign. by rewrite !(left_id_L ∅ (∪)). }
  rewrite HM in Hall.
  destruct (run_effects env st) as (M&st1&new&st2&lines&Hall'&Hrec&_&Hm&Hw&Hsv&_).
  rewrite Hall in Hall'. injection Hall' as <- <-.
  pose proof (scan_frame_scanAll st env st (scan_frame_refl st)) as Hframe.
  rewrite Hall in Hframe. destruct Hframe as (Hsaved & _).
  assert (Hnone : reconcile ∅ ss = (inr ∅, ss)).
  { rewrite reconcile_run. unfold Object_values. by rewrite map_to_list_empty. }
  rewrite Hnone in Hrec. injection Hrec as <- <-.
  rewrite Hall. split; [done|].
  rewrite Hm, Hw, Hsv. rewrite decide_True by done.
  by rewrite !app_nil_r.
Qed.

(** The same, on three sites that do not answer and a saved listing. *)
Lemma no_answer_changes_nothing_witness :
  (scanAll no_answer (initial sample_saved true false)).1 = inr ∅ ∧
  mails (run no_answer (initial sample_saved true false)) = [] ∧
  written (run no_answer (initial sample_saved true false)) = [] ∧
  savedListings (run no_answer (initial sample_saved true false)) = sample_saved.
Proof.
  exact (no_answer_changes_nothing no_answer (initial sample_saved true false)
           eq_refl eq_refl eq_refl).
Defined.

(** * Pagination, on sample sites *)

(** The hypotheses and the conclusion of the DuProprio theorem, on the two
    pages of the sample. *)
Lemma scanDuproprioListings_reads_every_page_witness :
  (scanDuproprioListings two_pages_each (initial ∅ false false)).1
    = inr (foldl (dup_page (formatDate sample_date)) ∅ [dup_page_one; dup_page_two]) ∧
  loaded (scanDuproprioListings two_pages_each (initial ∅ false false)).2 = 2%nat.
Proof.
  refine (scanDuproprioListings_reads_every_page two_pages_each
            dup_page_one [dup_page_two] (initial ∅ false false) eq_refl _ _).
  - by repeat split.
  - intros d Hd [st l].
    apply elem_of_cons in Hd as [-> | Hd];
      [| apply elem_of_cons in Hd as [-> | Hd]; [| by apply elem_of_nil in Hd]];
      reflexivity.
Defined.

Lemma scanSuttonListings_reads_every_page_witness :
  (scanSuttonListings two_pages_each (initial ∅ false false)).1
    = inr (foldl (sut_page (formatDate sample_date)) ∅ [sut_page_one; sut_page_two]) ∧
  loaded (scanSuttonListings two_pages_each (initial ∅ false false)).2 = 2%nat.
Proof.
  refine (scanSuttonListings_reads_every_page two_pages_each
            sut_page_one [sut_page_two] (initial ∅ false false) eq_refl _ _).
  - by repeat split.
  - intros d Hd st.
    apply elem_of_cons in Hd as [-> | Hd];
      [| apply elem_of_cons in Hd as [-> | Hd]; [| by apply elem_of_nil in Hd]];
      eexists; reflexivity.
Defined.

Lemma scanCentrisListings_reads_every_page_witness :
  (scanCentrisListings two_pages_each (initial ∅ false false)).1
    = inr (foldl (cen_page (centris_minPrice sample_config)
                    (centris_maxPrice sample_config) (formatDate sample_date))
             ∅ [cen_page_one; cen_page_two]) ∧
  loaded (scanCentrisListings two_pages_each (initial ∅ false false)).2 = 2%nat.
Proof.
  refine (scanCentrisListings_reads_every_page two_pages_each
            cen_page_one cen_page_two [] (initial ∅ false false) eq_refl _ _).
  - by repeat split.
  - intros d Hd [st l].
    apply elem_of_cons in Hd as [-> | Hd];
      [| apply elem_of_cons in Hd as [-> | Hd]; [| by apply elem_of_nil in Hd]];
      reflexivity.
Defined.

(** * What every record carries *)

(** A property that the items' loop body gives to the records it adds is a
    property of every record of the scan; for the loops that run in the
    page, Sutton's and Centris's, it is given to the records as they will
    arrive. *)
Section Records.
Variable P : string -> Listing -> Prop.

Lemma dup_do_while_records todaysDate upcoming :
  (∀ node, keeps (entries P) (dup_item todaysDate node)) →
  ∀ pageNumber document,
    keeps (entries P) (dup_do_while todaysDate pageNumber document upcoming).
Proof.
  intros Hitem.
  induction upcoming as [|next later IH]; intros pageNumber document;
    rewrite dup_do_while_unfold.
  - repeat first [ apply keeps_for_of; intros ? _; apply Hitem
                 | apply keeps_glob_on_local | keeps_step ].
  - repeat first [ apply keeps_for_of; intros ? _; apply Hitem
                 | apply IH | apply keeps_glob_on_local | keeps_step ].
Qed.

Lemma scanDuproprioListings_records env :
  (∀ node, keeps (entries P) (dup_item (formatDate (now env)) node)) →
  yields (scanDuproprioListings env) (map_Forall P).
Proof.
  intros Hitem. unfold scanDuproprioListings. apply yields_call.
  - apply map_Forall_empty.
  - repeat first [ by apply dup_do_while_records
                 | apply keeps_glob_on_local | keeps_step ].
  - returns_local_step.
Qed.

Lemma sut_evaluate_records document todaysDate :
  (∀ node, keeps (entries (in_page P)) (sut_item todaysDate node)) →
  yields (sut_evaluate document todaysDate) (map_Forall (in_page P)).
Proof.
  intros Hitem. unfold sut_evaluate. apply yields_call.
  - apply map_Forall_empty.
  - apply keeps_bind; [| intros _; apply keeps_get_local].
    apply keeps_for_of. intros node _. apply Hitem.
  - returns_local_step.
Qed.

Lemma sut_do_while_records todaysDate upcoming :
  (∀ node, keeps (entries (in_page P)) (sut_item todaysDate node)) →
  ∀ pageNumber document,
    keeps (entries P) (sut_do_while todaysDate pageNumber document upcoming).
Proof.
  intros Hitem.
  induction upcoming as [|next later IH]; intros pageNumber document;
    rewrite sut_do_while_unfold.
  all: apply keeps_bind; [apply keeps_glob_on_local | intros _].
  all: apply keeps_bind; [apply keeps_glob_on_local | intros _].
  all: eapply keeps_bind_yields;
       [ apply keeps_glob_on_local
       | apply yields_glob, sut_evaluate_records, Hitem
       | intros pageListings Hpage ].
  all: apply keeps_bind;
       [ apply keeps_set_local_on_local; intros listings Hall;
         by apply map_Forall_Object_assign, map_Forall_by_value
       | intros _ ].
  - repeat first [ apply keeps_glob_on_local | keeps_step ].
  - repeat first [ apply keeps_glob_on_local | apply IH | keeps_step ].
Qed.

Lemma scanSuttonListings_records env :
  (∀ node, keeps (entries (in_page P)) (sut_item (formatDate (now env)) node)) →
  yields (scanSuttonListings env) (map_Forall P).
Proof.
  intros Hitem. unfold scanSuttonListings. apply yields_call.
  - apply map_Forall_empty.
  - repeat first [ by apply sut_do_while_records
                 | apply keeps_glob_on_local | keeps_step ].
  - returns_local_step.
Qed.

Lemma scanCentrisListings_records env :
  (∀ node, keeps (entries (in_page P))
             (cen_item (centris_minPrice (config env)) (centris_maxPrice (config env))
                (formatDate (now env)) node)) →
  yields (scanCentrisListings env) (map_Forall P).
Proof.
  intros Hitem. unfold scanCentrisListings. apply yields_call.
  - apply map_Forall_empty.
  - apply keeps_bind; [apply keeps_glob_on_local | intros _].
    apply keeps_bind; [apply keeps_glob_on_local | intros _].
    apply keeps_bind; [| intros _; apply keeps_get_local].
    apply keeps_try_catch; [| intros e; apply keeps_glob_on_local].
    destruct (web_centris _ _) as [|document upcoming]; [apply keeps_throw|].
    apply keeps_bind; [apply keeps_glob_on_local | intros _].
    eapply (keeps_bind_yields _ (map_Forall (in_page P)));
      [apply keeps_glob_on_local | |].
    + apply yields_glob. unfold cen_evaluate. apply yields_call.
      * apply map_Forall_empty.
      * apply keeps_bind; [| intros _; apply keeps_get_local].
        apply keeps_cen_while; [| apply keeps_glob_on_local].
        intros doc node _ _. apply Hitem.
      * returns_local_step.
    + intros scannedListings Hscanned.
      apply keeps_bind;
        [ apply keeps_set_local_on_local; intros _ _;
          by apply map_Forall_by_value
        | intros _ ].
      repeat first [ apply keeps_glob_on_local | keeps_step ].
  - returns_local_step.
Qed.

End Records.

(** X10: whatever the sites hold, every record of a scan names its source
    ([DuProprio], [Centris], [Sutton]) and is dated with the formatted date
    of the run; the description of a Centris record is the empty string. *)
Theorem records_are_stamped (env : Env) (st : St) :
  ∃ d st1 c st2 s st3,
    scanDuproprioListings env st = (inr d, st1) ∧
    scanCentrisListings env st1 = (inr c, st2) ∧
    scanSuttonListings env st2 = (inr s, st3) ∧
    map_Forall (λ _ l, source l = "DuProprio"
                       ∧ dateScanned l = formatDate (now env)) d ∧
    map_Forall (λ _ l, source l = "Centris"
                       ∧ dateScanned l = formatDate (now env)
                       ∧ description l = Some "") c ∧
    map_Forall (λ _ l, source l = "Sutton"
                       ∧ dateScanned l = formatDate (now env)) s.
Proof.
  destruct (scanAll_run env st) as (d&st1&c&st2&s&st3&Hd&Hc&Hs&_).
  exists d, st1, c, st2, s, st3. do 3 (split; [done|]).
  split; [| split].
  - eapply scanDuproprioListings_records; [| by rewrite Hd].
    intros node. unfold dup_item.
    destruct (dup_attr_id node) as [i|]; simpl; [| apply keeps_ret].
    destruct (JsString.test_listing i); simpl; [| apply keeps_ret].
    apply keeps_bind; [apply keeps_glob_on_local | intros _].
    eapply keeps_bind_yields; [apply keeps_settle | apply yields_settle |].
    intros l Hl. apply keeps_set_local_on_local. intros listings Hall.
    apply map_Forall_insert_2; [| exact Hall].
    unfold dup_evaluate in Hl.
    destruct (dup_price node); [| discriminate].
    destruct (dup_img node); [| discriminate].
    destruct (dup_link node); [| discriminate].
    by injection Hl as <-.
  - eapply scanCentrisListings_records; [| by rewrite Hc].
    intros node. unfold cen_item.
    destruct (cen_details node) as [[i href]|]; [| apply keeps_throw].
    destruct (cen_img node); [| apply keeps_throw].
    destruct (cen_price node); [| apply keeps_throw].
    destruct (_ || _); [apply keeps_ret|].
    apply keeps_set_local_on_local. intros listings Hall.
    by apply map_Forall_insert_2.
  - eapply scanSuttonListings_records; [| by rewrite Hs].
    intros node. unfold sut_item.
    destruct (sut_vendu node); [apply keeps_ret|].
    destruct (sut_img node); [| apply keeps_throw].
    destruct (sut_details node) as [[text href]|]; [| apply keeps_throw].
    apply keeps_set_local_on_local. intros listings Hall.
    by apply map_Forall_insert_2.
Qed.


(** * DuProprio: the price and the id of an item (scan.js 83-99) *)

Lemma is_digit_facts c :
  JsString.is_digit c = true →
  (∀ t, JsString.after_any JsString.white_space (String c t) = None) ∧
  Ascii.eqb c "-" = false ∧
  ∃ d, JsNumber.digit_value 10 c = Some d ∧ 0 ≤ d.
Proof.
  destruct c as [[] [] [] [] [] [] [] []]; intros H; try discriminate H;
    (split; [intros t; reflexivity | split; [reflexivity |]]);
    eexists; (split; [vm_compute; reflexivity | vm_compute; congruence]).
Qed.

(** No white space is skipped in front of a digit. *)
Lemma trimStart_digit c t :
  JsString.is_digit c = true → JsString.trimStart (String c t) = String c t.
Proof.
  intros H. destruct (is_digit_facts c H) as (Hnone & _).
  unfold JsString.trimStart. cbn [String.length JsString.drop_leading].
  by rewrite Hnone.
Qed.

Lemma all_digits_digits_only s : all_digits (JsString.digits_only s) = true.
Proof.
  induction s as [|c s IH]; [done|]. simpl.
  destruct (JsString.is_digit c) eqn:E; [| exact IH]. simpl. by rewrite E.
Qed.

Lemma digit_value_nonneg radix c d : JsNumber.digit_value radix c = Some d → 0 ≤ d.
Proof.
  unfold JsNumber.digit_value.
  generalize (Z.of_nat (nat_of_ascii c)). intros n. cbv zeta.
  destruct ((48 <=? n) && (n <=? 57)) eqn:E1;
    [| destruct ((97 <=? n) && (n <=? 122)) eqn:E2;
       [| destruct ((65 <=? n) && (n <=? 90)) eqn:E3; [| done]]];
    match goal with |- context [if ?b then _ else _] => destruct b end;
    intros [= <-];
    match goal with H : _ && _ = true |- _ =>
      apply andb_true_iff in H as [H _]; apply Z.leb_le in H end; lia.
Qed.

Lemma read_digits_nonneg s : ∀ acc v,
  (∀ a, acc = Some a → 0 ≤ a) →
  JsNumber.read_digits 10 s acc = Some v → 0 ≤ v.
Proof.
  induction s as [|c s IH]; intros acc v Hacc; simpl.
  - intros ->. by apply Hacc.
  - destruct (JsNumber.digit_value 10 c) as [d|] eqn:Hd; [| intros ->; by apply Hacc].
    apply IH. intros a [= <-]. apply digit_value_nonneg in Hd.
    destruct acc as [a0|]; [| done]. specialize (Hacc a0 eq_refl). lia.
Qed.

Lemma read_digits_started radix s : ∀ a, is_Some (JsNumber.read_digits radix s (Some a)).
Proof.
  induction s as [|c s IH]; intros a; simpl; [by eexists|].
  destruct (JsNumber.digit_value radix c); [apply IH | by eexists].
Qed.

(** On a string of digits [parseInt] sees no white space, no sign and no
    [0x]: it reads the digits in base ten. *)
Lemma parseInt_all_digits t :
  all_digits t = true →
  JsNumber.parseInt t
  = match JsNumber.read_digits 10 t None with Some v => Num v | None => NaN end.
Proof.
  destruct t as [|c t]; [done|]. simpl. intros H.
  apply andb_true_iff in H as [Hc Ht].
  assert (Hshape : ∀ t', match t' with
                         | String c2 _ => JsString.is_digit c2 = true
                         | EmptyString => True
                         end →
            JsNumber.parseInt (String c t')
            = match JsNumber.read_digits 10 (String c t') None with
              | Some v => Num v
              | None => NaN
              end).
  { intros t' Ht'. unfold JsNumber.parseInt. rewrite (trimStart_digit c t' Hc).
    destruct c as [[] [] [] [] [] [] [] []]; try discriminate Hc;
      repeat (cbn;
              repeat match goal with
                     | |- context [JsNumber.digit_value 10 (Ascii ?a ?b ?c ?d ?e ?f ?g ?h)] =>
                         let v := eval vm_compute in
                                    (JsNumber.digit_value 10 (Ascii a b c d e f g h)) in
                         change (JsNumber.digit_value 10 (Ascii a b c d e f g h)) with v
                     end);
      try (match goal with
           | |- context [JsNumber.read_digits ?r ?s ?a] =>
               destruct (JsNumber.read_digits r s a); [f_equal; lia | done]
           end).
    destruct t' as [|c2 t'']; [done|].
    destruct c2 as [[] [] [] [] [] [] [] []]; try discriminate Ht';
      repeat (cbn;
              repeat match goal with
                     | |- context [JsNumber.digit_value 10 (Ascii ?a ?b ?c ?d ?e ?f ?g ?h)] =>
                         let v := eval vm_compute in
                                    (JsNumber.digit_value 10 (Ascii a b c d e f g h)) in
                         change (JsNumber.digit_value 10 (Ascii a b c d e f g h)) with v
                     end);
      match goal with
      | |- context [JsNumber.read_digits ?r ?s ?a] =>
          destruct (JsNumber.read_digits r s a); [f_equal; lia | done]
      end. }
  apply Hshape. destruct t as [|c2 t]; [done|]. simpl in Ht.
  by apply andb_true_iff in Ht as [? _].
Qed.

(** What [parseInt] makes of the digits of a text: nothing when there is
    none, a number that is not negative otherwise. *)
Lemma parseInt_digits_only priceText :
  (JsString.digits_only priceText = ""
   ∧ JsNumber.parseInt (JsString.digits_only priceText) = NaN) ∨
  (JsString.digits_only priceText ≠ ""
   ∧ ∃ z, JsNumber.parseInt (JsString.digits_only priceText) = Num z ∧ 0 ≤ z).
Proof.
  rewrite parseInt_all_digits by apply all_digits_digits_only.
  pose proof (all_digits_digits_only priceText) as Hall.
  destruct (JsString.digits_only priceText) as [|c t] eqn:E; [by left|].
  right. split; [done|]. simpl in Hall. apply andb_true_iff in Hall as [Hc _].
  destruct (is_digit_facts c Hc) as (_ & _ & d & Hd & Hpos).
  simpl. rewrite Hd.
  destruct (read_digits_started 10 t d) as [v Hv]. rewrite Hv.
  exists v. split; [done|].
  apply (read_digits_nonneg t (Some d) v); [by intros a [= <-] | done].
Qed.

(** X12: whatever the site holds, the price of a record of the DuProprio
    scan is [null] or a number that is not negative, never [NaN]; it is
    [null] when the text of the price element of its item holds no digit,
    and a number when that text holds from one to fifteen digits. *)
Theorem duproprio_price_is_null_or_positive (env : Env) (st : St) :
  ∃ d st',
    scanDuproprioListings env st = (inr d, st') ∧
    map_Forall (λ k l,
      (price l = Null ∨ ∃ z, price l = Num z ∧ 0 ≤ z) ∧
      ∃ doc node s priceText,
        doc ∈ web_duproprio (web env) (duproprio_url (config env)) ∧
        node ∈ dup_items doc ∧
        dup_attr_id node = Some s ∧
        k = "duproprio-" +:+ JsString.of_optional (JsString.split "-" s !! 1%nat) ∧
        dup_price node = Some priceText ∧
        (JsString.digits_only priceText = "" → price l = Null) ∧
        (JsString.digits_only priceText ≠ "" →
         (String.length (JsString.digits_only priceText) <= 15)%nat →
         ∃ z, price l = Num z ∧ 0 ≤ z)) d.
Proof.
  destruct (returns_scanDuproprioListings env st) as [d Hd].
  pose proof (scanDuproprioListings_entries env st d Hd) as Pd.
  destruct (scanDuproprioListings env st) as [r st'] eqn:E. simpl in Hd. subst r.
  exists d, st'. split; [done|]. intros k l Hl.
  destruct (Pd k l Hl)
    as (doc&node&s&priceText&src&href&Hdoc&Hnode&_&Hid&_&Hprice&_&_&Hk&_&Hp&_).
  destruct (parseInt_digits_only priceText) as [[Hnone Hnan] | [Hsome (z & Hz & Hpos)]].
  - rewrite Hnan in Hp. simpl in Hp. split; [by left|].
    exists doc, node, s, priceText. by repeat split.
  - rewrite Hz in Hp. simpl in Hp. split; [right; by exists z|].
    exists doc, node, s, priceText. repeat split; try done. by exists z.
Qed.












(** * A navigation that times out (scan.js 113-131) *)

Lemma throws_throw {S A} (P Q : S -> Prop) e :
  (∀ s, P s → Q s) → throws P (throw e : Js S A) e Q.
Proof. intros H s Hs. split; [done | by apply H]. Qed.

Lemma hoare_bind_throws {S A B} (P : S -> Prop) (R : A -> S -> Prop) (Q : S -> Prop)
    (m : Js S A) (f : A -> Js S B) e :
  hoare P m R → (∀ a, throws (R a) (f a) e Q) → throws P (m ≫= f) e Q.
Proof.
  intros Hm Hf s Hs. unfold mbind, Js_bind.
  destruct (Hm s Hs) as (a & Ha & HR).
  destruct (m s) as [r s']. simpl in *. subst r. by apply Hf.
Qed.

Lemma throws_bind {S A B} (P Q : S -> Prop) (m : Js S A) (f : A -> Js S B) e :
  throws P m e Q → throws P (m ≫= f) e Q.
Proof.
  intros Hm s Hs. unfold mbind, Js_bind. destruct (Hm s Hs) as [He HQ].
  destruct (m s) as [r s']. simpl in *. by subst r.
Qed.

Lemma hoare_try_catch_throws {S A} (P R : S -> Prop) (Q : A -> S -> Prop)
    (m : Js S A) h e :
  throws P m e R → hoare R (h e) Q → hoare P (try_catch m h) Q.
Proof.
  intros Hm Hh s Hs. unfold try_catch. destruct (Hm s Hs) as [He HR].
  destruct (m s) as [r s']. simpl in *. subst r. by apply Hh.
Qed.

Lemma dup_do_while_times_out todaysDate upcoming :
  ∀ pageNumber document n acc,
    (∀ d, d ∈ document :: upcoming →
       dup_active_is_last d = false ∧ dup_has_next d = true) →
    (∀ d, d ∈ document :: upcoming → ∀ s, (dup_items_loop todaysDate d s).1 = inr tt) →
    throws (at_page n acc)
      (dup_do_while todaysDate pageNumber document upcoming)
      TimeoutError
      (at_page (n + List.length upcoming)
         (foldl (dup_page todaysDate) acc (document :: upcoming))).
Proof.
  induction upcoming as [|next later IH];
    intros pageNumber document n acc Hpages Hitems; rewrite dup_do_while_unfold;
    destruct (Hpages document) as [Hlast Hnext]; try (by left);
    rewrite Hlast, Hnext; simpl negb; cbv iota.
  all: eapply hoare_bind_throws; [apply hoare_glob_verbose | intros ?; cbv beta].
  all: eapply hoare_bind_throws; [apply hoare_glob_set_status | intros ?; cbv beta].
  all: eapply hoare_bind_throws;
       [ apply hoare_dup_items_loop, Hitems; left | intros ?; cbv beta ].
  all: eapply hoare_bind_throws; [apply hoare_glob_set_status | intros ?; cbv beta].
  - apply throws_throw. intros s. simpl. by rewrite Nat.add_0_r.
  - eapply hoare_bind_throws; [apply hoare_glob_display | intros ?; cbv beta].
    simpl List.length. rewrite <- Nat.add_succ_comm. simpl foldl.
    apply IH; intros d Hd; [apply Hpages | apply Hitems]; by right.
Qed.

(** X14: when DuProprio stops answering after some pages, each of which
    announced a following page, the scan does not fail: it returns what the
    items of the pages it displayed add up to. *)
Theorem duproprio_timeout_keeps_what_was_read (env : Env) (document : DupDoc)
    (upcoming : list DupDoc) (st : St) :
  web_duproprio (web env) (duproprio_url (config env)) = document :: upcoming →
  (∀ d, d ∈ document :: upcoming →
     dup_active_is_last d = false ∧ dup_has_next d = true) →
  (∀ d, d ∈ document :: upcoming →
     ∀ s, (dup_items_loop (formatDate (now env)) d s).1 = inr tt) →
  (scanDuproprioListings env st).1
    = inr (foldl (dup_page (formatDate (now env))) ∅ (document :: upcoming)) ∧
  loaded (scanDuproprioListings env st).2 = (loaded st + S (List.length upcoming))%nat.
Proof.
  intros Hsite Hpages Hitems.
  cut (hoare (λ st', st' = st) (scanDuproprioListings env)
         (λ a st', a = foldl (dup_page (formatDate (now env))) ∅ (document :: upcoming)
                   ∧ loaded st' = (loaded st + S (List.length upcoming))%nat)).
  { intros H. destruct (H st eq_refl) as (a & -> & -> & Hl). done. }
  unfold scanDuproprioListings. rewrite Hsite. apply hoare_call.
  intros [st0 l0] [H1 H2]. simpl in H1, H2. subst st0 l0.
  cut (hoare (at_page (loaded st) ∅)
         (glob (set_status "Opening DuProprio's website");;
          glob (verbose "Opening DuProprio's website..." false);;
          try_catch
            (glob display;;
             glob (verbose "Starting to scan for listings..." false);;
             dup_do_while (formatDate (now env)) 1 document upcoming;;
             glob (set_status "Finished scanning DuProprio");;
             listings ← get_local;
             glob (verbose ("Finished scanning DuProprio: total of "
                            +:+ pretty (Object_keys_length listings)
                            +:+ " listings found.") false))
            (λ e, glob (verbose ("An error occured while scanning DuProprio: "
                                 +:+ message e) false));;
          get_local)
         (λ a s', a = foldl (dup_page (formatDate (now env))) ∅ (document :: upcoming)
                  ∧ loaded s'.1 = (loaded st + S (List.length upcoming))%nat)).
  { intros H. apply H. by split. }
  eapply hoare_bind; [apply hoare_glob_set_status | intros ?; cbv beta].
  eapply hoare_bind; [apply hoare_glob_verbose | intros ?; cbv beta].
  apply (hoare_bind _
           (λ _ : (), at_page (S (loaded st) + List.length upcoming)
                        (foldl (dup_page (formatDate (now env))) ∅
                           (document :: upcoming)))).
  - eapply hoare_try_catch_throws; [| apply hoare_glob_verbose].
    eapply hoare_bind_throws; [apply hoare_glob_display | intros ?; cbv beta].
    eapply hoare_bind_throws; [apply hoare_glob_verbose | intros ?; cbv beta].
    apply throws_bind. by apply dup_do_while_times_out.
  - intros ?; cbv beta.
    intros s' [Hn Hacc]. exists s'.2. split; [done|]. split; [done|].
    simpl. rewrite Hn. lia.
Qed.

(** The same, on two pages after which the site stalls. *)
Lemma duproprio_timeout_keeps_what_was_read_witness :
  (scanDuproprioListings duproprio_stalls (initial ∅ false false)).1
    = inr (foldl (dup_page (formatDate sample_date)) ∅ [dup_page_one; dup_page_three]) ∧
  loaded (scanDuproprioListings duproprio_stalls (initial ∅ false false)).2 = 2%nat.
Proof.
  refine (duproprio_timeout_keeps_what_was_read duproprio_stalls
            dup_page_one [dup_page_three] (initial ∅ false false) eq_refl _ _).
  - intros d Hd.
    apply elem_of_cons in Hd as [-> | Hd];
      [| apply elem_of_cons in Hd as [-> | Hd]; [| by apply elem_of_nil in Hd]];
      by split.
  - intros d Hd [st l].
    apply elem_of_cons in Hd as [-> | Hd];
      [| apply elem_of_cons in Hd as [-> | Hd]; [| by apply elem_of_nil in Hd]];
      reflexivity.
Defined.

(** * Trimmed texts (scan.js 100-102, 169-171, 249-250, 311-322) *)

Lemma append_snoc r c acc : (r +:+ String c "") +:+ acc = r +:+ String c acc.
Proof.
  induction r as [|a r IHr]; [done|].
  change (String a ((r +:+ String c "") +:+ acc) = String a (r +:+ String c acc)).
  by rewrite IHr.
Qed.

Lemma rev_onto_append s acc :
  JsString.rev_onto s acc = JsString.rev_onto s "" +:+ acc.
Proof.
  revert acc. induction s as [|c s IH]; intros acc; [done|].
  change (JsString.rev_onto s (String c acc)
          = JsString.rev_onto s (String c "") +:+ acc).
  by rewrite (IH (String c acc)), (IH (String c "")), append_snoc.
Qed.

Lemma rev_onto_of_append a b acc :
  JsString.rev_onto (a +:+ b) acc = JsString.rev_onto b (JsString.rev_onto a acc).
Proof. revert acc. induction a as [|c a IH]; intros acc; [done|]. simpl. apply IH. Qed.

Lemma rev_cons c s : JsString.rev (String c s) = JsString.rev s +:+ String c "".
Proof. unfold JsString.rev. simpl. apply rev_onto_append. Qed.

Lemma rev_snoc s c : JsString.rev (s +:+ String c "") = String c (JsString.rev s).
Proof. unfold JsString.rev. by rewrite rev_onto_of_append. Qed.

Lemma rev_rev s : JsString.rev (JsString.rev s) = s.
Proof.
  induction s as [|c s IH]; [done|]. by rewrite rev_cons, rev_snoc, IH.
Qed.

Lemma rev_append a b : JsString.rev (a +:+ b) = JsString.rev b +:+ JsString.rev a.
Proof.
  unfold JsString.rev. by rewrite rev_onto_of_append, rev_onto_append.
Qed.

Lemma length_append a b : String.length (a +:+ b) = (String.length a + String.length b)%nat.
Proof. induction a as [|c a IH]; [done|]. simpl. by rewrite IH. Qed.

Lemma length_rev s : String.length (JsString.rev s) = String.length s.
Proof.
  induction s as [|c s IH]; [done|].
  rewrite rev_cons, length_append, IH. simpl. lia.
Qed.

Lemma append_assoc a b c : (a +:+ b) +:+ c = a +:+ (b +:+ c).
Proof.
  induction a as [|x a IH]; [done|].
  change (String x ((a +:+ b) +:+ c) = String x (a +:+ (b +:+ c))). by rewrite IH.
Qed.

(** [strip_prefix] takes off a prefix, and only a prefix. *)
Lemma strip_prefix_Some w s r : JsString.strip_prefix w s = Some r ↔ s = w +:+ r.
Proof.
  revert s. induction w as [|a w IH]; intros s; simpl.
  - split; [by intros [= ->] | by intros ->].
  - destruct s as [|b s]; [split; discriminate|].
    destruct (Ascii.eqb a b) eqn:E.
    + apply Ascii.eqb_eq in E as ->. rewrite IH.
      split; [by intros -> | by intros [= ->]].
    + split; [discriminate|]. intros [= -> _]. by rewrite Ascii.eqb_refl in E.
Qed.

Lemma prefix_strip_prefix w s :
  String.prefix w s = match JsString.strip_prefix w s with Some _ => true | None => false end.
Proof.
  revert s. induction w as [|a w IH]; intros [|b s]; simpl; try done.
  destruct (ascii_dec a b) as [->|Hne].
  - rewrite Ascii.eqb_refl. apply IH.
  - destruct (Ascii.eqb a b) eqn:E; [| done]. by apply Ascii.eqb_eq in E.
Qed.

Lemma after_any_Some ws s r :
  JsString.after_any ws s = Some r → ∃ w, w ∈ ws ∧ s = w +:+ r.
Proof.
  induction ws as [|w ws IH]; simpl; [discriminate|].
  destruct (JsString.strip_prefix w s) as [r'|] eqn:E.
  - intros [= ->]. exists w. split; [left | by apply strip_prefix_Some].
  - intros H. destruct (IH H) as (w' & Hw' & Hs). exists w'. split; [by right | done].
Qed.

Lemma after_any_None ws s w r :
  JsString.after_any ws s = None → w ∈ ws → s ≠ w +:+ r.
Proof.
  induction ws as [|w' ws IH]; simpl; intros H Hw; [by apply elem_of_nil in Hw|].
  destruct (JsString.strip_prefix w' s) as [r'|] eqn:E; [discriminate|].
  apply elem_of_cons in Hw as [-> | Hw]; [| by apply IH].
  intros Hs. apply strip_prefix_Some in Hs. congruence.
Qed.

Lemma starts_with_any_after_any ws s :
  starts_with_any ws s
  = match JsString.after_any ws s with Some _ => true | None => false end.
Proof.
  unfold starts_with_any. induction ws as [|w ws IH]; [done|]. simpl.
  rewrite prefix_strip_prefix, IH. by destruct (JsString.strip_prefix w s).
Qed.

(** Once the members of [ws], none of which is empty, are dropped from the
    head of [s], none is left there; [n] is enough when it is the length of
    [s]. *)
Lemma drop_leading_done ws : Forall (λ w, w ≠ "") ws →
  ∀ n s, (String.length s <= n)%nat →
    JsString.after_any ws (JsString.drop_leading ws n s) = None.
Proof.
  intros Hws. induction n as [|n IH]; intros s Hn; simpl.
  - destruct s; [| simpl in Hn; lia].
    destruct (JsString.after_any ws "") as [r|] eqn:E; [| done].
    apply after_any_Some in E as (w & Hw & Hs).
    rewrite Forall_forall in Hws. specialize (Hws w Hw). by destruct w.
  - destruct (JsString.after_any ws s) as [r|] eqn:E; [| exact E].
    apply IH. apply after_any_Some in E as (w & Hw & ->).
    rewrite Forall_forall in Hws. specialize (Hws w Hw).
    rewrite length_append in Hn. destruct w; [done|]. simpl in Hn. lia.
Qed.

(** What is dropped is a prefix. *)
Lemma drop_leading_suffix ws n : ∀ s, ∃ p, s = p +:+ JsString.drop_leading ws n s.
Proof.
  induction n as [|n IH]; intros s; simpl; [by exists ""|].
  destruct (JsString.after_any ws s) as [r|] eqn:E; [| by exists ""].
  apply after_any_Some in E as (w & _ & ->).
  destruct (IH r) as (p & Hp). exists (w +:+ p).
  by rewrite append_assoc, <- Hp.
Qed.

Lemma drop_leading_nothing ws n s :
  JsString.after_any ws s = None → JsString.drop_leading ws n s = s.
Proof. intros H. destruct n; [done|]. simpl. by rewrite H. Qed.

Lemma white_space_not_empty : Forall (λ w, w ≠ "") JsString.white_space.
Proof. repeat constructor; discriminate. Qed.

Lemma rev_white_space_not_empty :
  Forall (λ w, w ≠ "") (List.map JsString.rev JsString.white_space).
Proof. repeat constructor; discriminate. Qed.

Lemma trimStart_done s :
  JsString.after_any JsString.white_space (JsString.trimStart s) = None.
Proof. apply drop_leading_done; [apply white_space_not_empty | done]. Qed.

(** Trimming the end gives a prefix, and a prefix of a text that starts
    with no white space starts with none. *)
Lemma trimEnd_keeps_start s :
  JsString.after_any JsString.white_space s = None →
  JsString.after_any JsString.white_space (JsString.trimEnd s) = None.
Proof.
  intros Hs. unfold JsString.trimEnd.
  destruct (drop_leading_suffix (List.map JsString.rev JsString.white_space)
              (String.length s) (JsString.rev s)) as (p & Hp).
  set (t := JsString.drop_leading _ _ _) in *.
  assert (Hprefix : s = JsString.rev t +:+ JsString.rev p)
    by (by rewrite <- rev_append, <- Hp, rev_rev).
  destruct (JsString.after_any JsString.white_space (JsString.rev t)) as [r|] eqn:E;
    [| done].
  apply after_any_Some in E as (w & Hw & Hr).
  exfalso. apply (after_any_None _ s w (r +:+ JsString.rev p) Hs Hw).
  by rewrite Hprefix, Hr, append_assoc.
Qed.

Lemma trimEnd_done s :
  JsString.after_any (List.map JsString.rev JsString.white_space)
    (JsString.rev (JsString.trimEnd s)) = None.
Proof.
  unfold JsString.trimEnd. rewrite rev_rev.
  apply drop_leading_done; [apply rev_white_space_not_empty|].
  by rewrite length_rev.
Qed.

Lemma trim_bare s : bare (JsString.trim s) = true.
Proof.
  unfold bare, starts_with_space, ends_with_space, JsString.trim.
  rewrite !starts_with_any_after_any.
  by rewrite trimEnd_keeps_start, trimEnd_done by apply trimStart_done.
Qed.

Lemma trim_of_bare s : bare s = true → JsString.trim s = s.
Proof.
  unfold bare, starts_with_space, ends_with_space.
  rewrite !starts_with_any_after_any. intros H.
  apply andb_true_iff in H as [H1 H2].
  destruct (JsString.after_any JsString.white_space s) eqn:E1; [discriminate|].
  destruct (JsString.after_any _ (JsString.rev s)) eqn:E2; [discriminate|].
  unfold JsString.trim, JsString.trimStart, JsString.trimEnd.
  rewrite (drop_leading_nothing _ _ s E1), (drop_leading_nothing _ _ _ E2).
  apply rev_rev.
Qed.

Lemma bare_if_present_trim (text : option string) :
  bare_if_present (JsString.trim <$> text).
Proof.
  intros s Hs. destruct text as [t|]; [| discriminate].
  injection Hs as <-. apply trim_bare.
Qed.

(** X15: whatever the sites hold, the city, the address and the description
    of every record of a scan are either absent or texts with no white space
    left at either end. *)
Theorem record_texts_are_trimmed (env : Env) (st : St) :
  ∃ d st1 c st2 s st3,
    scanDuproprioListings env st = (inr d, st1) ∧
    scanCentrisListings env st1 = (inr c, st2) ∧
    scanSuttonListings env st2 = (inr s, st3) ∧
    map_Forall (λ _ l, bare_if_present (city l) ∧ bare_if_present (address l)
                       ∧ bare_if_present (description l)) (d ∪ c ∪ s).
Proof.
  destruct (scanAll_run env st) as (d&st1&c&st2&s&st3&Hd&Hc&Hs&_).
  exists d, st1, c, st2, s, st3. do 3 (split; [done|]).
  repeat apply map_Forall_union_2.
  - eapply scanDuproprioListings_records; [| by rewrite Hd].
    intros node. unfold dup_item.
    destruct (dup_attr_id node) as [i|]; simpl; [| apply keeps_ret].
    destruct (JsString.test_listing i); simpl; [| apply keeps_ret].
    apply keeps_bind; [apply keeps_glob_on_local | intros _].
    eapply keeps_bind_yields; [apply keeps_settle | apply yields_settle |].
    intros l Hl. apply keeps_set_local_on_local. intros listings Hall.
    apply map_Forall_insert_2; [| exact Hall].
    unfold dup_evaluate in Hl.
    destruct (dup_price node); [| discriminate].
    destruct (dup_img node); [| discriminate].
    destruct (dup_link node); [| discriminate].
    injection Hl as <-. simpl. repeat split; apply bare_if_present_trim.
  - eapply scanCentrisListings_records; [| by rewrite Hc].
    intros node. unfold cen_item.
    destruct (cen_details node) as [[i href]|]; [| apply keeps_throw].
    destruct (cen_img node); [| apply keeps_throw].
    destruct (cen_price node); [| apply keeps_throw].
    destruct (_ || _); [apply keeps_ret|].
    apply keeps_set_local_on_local. intros listings Hall.
    apply map_Forall_insert_2; [| exact Hall].
    simpl. repeat split; try apply bare_if_present_trim.
    by intros ? [= <-].
  - eapply scanSuttonListings_records; [| by rewrite Hs].
    intros node. unfold sut_item.
    destruct (sut_vendu node); [apply keeps_ret|].
    destruct (sut_img node); [| apply keeps_throw].
    destruct (sut_details node) as [[text href]|]; [| apply keeps_throw].
    apply keeps_set_local_on_local. intros listings Hall.
    apply map_Forall_insert_2; [| exact Hall].
    simpl. repeat split; try apply bare_if_present_trim.
    intros ? [= <-]. apply trim_bare.
Qed.

(** X16: the text [getTextContentForSelector] returns has no white space
    left at either end, trimming it again changes nothing, and it is the
    empty string when the selector matches no element. *)
Theorem getTextContentForSelector_is_trimmed (selector : string)
    (parentElement : string -> option string) :
  bare (getTextContentForSelector selector parentElement) = true ∧
  JsString.trim (getTextContentForSelector selector parentElement)
  = getTextContentForSelector selector parentElement ∧
  (parentElement selector = None →
   getTextContentForSelector selector parentElement = "").
Proof.
  unfold getTextContentForSelector, getTextContent.
  destruct (parentElement selector) as [textContent|].
  - split; [apply trim_bare|]. split; [| discriminate].
    apply trim_of_bare, trim_bare.
  - by split.
Qed.

(** * The date of a record (scan.js 328-333) *)



Lemma get_append_at a c b :
  String.get (String.length a) (a +:+ String c b) = Some c.
Proof. induction a as [|x a IH]; [done|]. exact IH. Qed.


